(** * Frequency-domain analysis core of [control/freqplot.py]

    A shallow embedding of the numerical (non-plotting) parts of
    [bode_plot], [nyquist_plot], [singular_values_plot],
    [_determine_omega_vector] and [_default_frequency_range].

    Conventions of the embedding:
    - Python floats are idealised as the real numbers [R]; a complex number
      is a record of its real and imaginary part.  Comparisons on floats
      become the decidable comparisons of [R] turned into booleans.
    - NumPy arrays are lists.  In-place updates of a local array are
      written as the new list.
    - A Python exception is the [Raise] case of [result]; sequencing of
      statements that may raise is the bind of that monad.
    - Python variables that are re-bound inside the loop over systems
      ([initial_phase], [wrap_phase] in [bode_plot]) are threaded through
      the loop as an explicit state. *)

From Stdlib Require Import Reals Lra Lia List ZArith String Bool.
Import ListNotations.
Local Open Scope R_scope.

(* ------------------------------------------------------------------ *)
(** ** Exceptions *)

Inductive exn : Type :=
| ValueError (msg : string)
| IndexError (index size : nat)
| ControlMIMONotImplemented (msg : string).

Inductive result (A : Type) : Type :=
| Ok (a : A)
| Raise (e : exn).

Arguments Ok {A} a.
Arguments Raise {A} e.

Definition bind {A B : Type} (m : result A) (k : A -> result B) : result B :=
  match m with
  | Ok a => k a
  | Raise e => Raise e
  end.

Notation "x <- m ;; k" := (bind m (fun x => k))
  (at level 61, m at next level, right associativity).

Fixpoint mapM {A B : Type} (f : A -> result B) (l : list A) : result (list B) :=
  match l with
  | [] => Ok []
  | a :: t => b <- f a ;; bs <- mapM f t ;; Ok (b :: bs)
  end.

(* ------------------------------------------------------------------ *)
(** ** Float comparisons as booleans *)

Definition Rltb (x y : R) : bool := if Rlt_dec x y then true else false.
Definition Rleb (x y : R) : bool := if Rle_dec x y then true else false.

Infix "<?" := Rltb (at level 70, no associativity) : R_scope.
Infix "<=?" := Rleb (at level 70, no associativity) : R_scope.

(* ------------------------------------------------------------------ *)
(** ** Complex numbers *)

Record C : Type := mkC { real : R; imag : R }.

Definition C0 : C := mkC 0 0.
Definition C1 : C := mkC 1 0.

(** [complex(x)] *)
Definition of_real (x : R) : C := mkC x 0.

(** [1j * w] for a float [w] *)
Definition j_times (w : R) : C := mkC 0 w.

Definition Cadd (a b : C) : C := mkC (real a + real b) (imag a + imag b).
Definition Csub (a b : C) : C := mkC (real a - real b) (imag a - imag b).

(** [z + x] and [z - x] for a complex [z] and a float [x] *)
Definition Cadd_real (z : C) (x : R) : C := mkC (real z + x) (imag z).
Definition Csub_real (z : C) (x : R) : C := mkC (real z - x) (imag z).

(** [z * x] and [z / x] for a complex [z] and a float [x] *)
Definition Cscale (z : C) (x : R) : C := mkC (real z * x) (imag z * x).
Definition Cdiv_real (z : C) (x : R) : C := mkC (real z / x) (imag z / x).

(** [abs(z)] *)
Definition Cabs (z : C) : R := sqrt (real z * real z + imag z * imag z).

(** [np.exp(z)] *)
Definition Cexp (z : C) : C :=
  mkC (exp (real z) * cos (imag z)) (exp (real z) * sin (imag z)).

(* ------------------------------------------------------------------ *)
(** ** The NumPy and [math] functions the code calls *)

Module Np.

(** [np.arctan2(y, x)] *)
Definition arctan2 (y x : R) : R :=
  if 0 <? x then atan (y / x)
  else if x <? 0 then
    (if 0 <=? y then atan (y / x) + PI else atan (y / x) - PI)
  else if 0 <? y then PI / 2
  else if y <? 0 then - (PI / 2)
  else 0.

(** [np.angle(z)] *)
Definition angle (z : C) : R := arctan2 (imag z) (real z).

(** [np.log(z)] on a complex number (principal branch) *)
Definition log (z : C) : C := mkC (ln (Cabs z)) (angle z).

(** [np.log10(x)] on a float *)
Definition log10 (x : R) : R := ln x / ln 10.

(** [np.isclose(a, b)] with the default [rtol=1e-05], [atol=1e-08] *)
Definition rtol : R := 1 / 100000.
Definition atol : R := 1 / 100000000.
Definition isclose (a b : R) : bool := Rabs (a - b) <=? atol + rtol * Rabs b.

(** [np.any] on a boolean array *)
Definition any (l : list bool) : bool := existsb (fun b => b) l.

(** Rounding to the nearest integer, halves to the even neighbour:
    [np.rint], [np.round(x, 0)] and the built-in [round]. *)
Definition round_half_even (x : R) : Z :=
  let f := Zfloor x in
  let r := x - IZR f in
  if r <? 1 / 2 then f
  else if 1 / 2 <? r then (f + 1)%Z
  else if Z.even f then f else (f + 1)%Z.

Definition rint (x : R) : R := IZR (round_half_even x).

(** [np.ceil] *)
Definition ceil (x : R) : R := IZR (Zceil x).

(** [np.maximum(0, x)] *)
Definition maximum0 (x : R) : R := Rmax 0 x.

(** [np.diff]: [a[1:] - a[:-1]] *)
Fixpoint diff (l : list R) : list R :=
  match l with
  | x :: ((y :: _) as t) => (y - x) :: diff t
  | _ => []
  end.

(** [np.sum] *)
Definition sum (l : list R) : R := fold_right Rplus 0 l.

(** [np.cumsum] *)
Fixpoint cumsum_from (acc : R) (l : list R) : list R :=
  match l with
  | [] => []
  | x :: t => (acc + x) :: cumsum_from (acc + x) t
  end.
Definition cumsum (l : list R) : list R := cumsum_from 0 l.

(** [np.min], [np.max] of a non-empty array given as head and tail *)
Definition min (x : R) (l : list R) : R := fold_left Rmin l x.
Definition max (x : R) (l : list R) : R := fold_left Rmax l x.

(** [a.argmin()]: index of the first minimum; raises on an empty array. *)
Fixpoint argmin_from (best_i : nat) (best : R) (i : nat) (l : list R) : nat :=
  match l with
  | [] => best_i
  | x :: t => if x <? best then argmin_from i x (S i) t
              else argmin_from best_i best (S i) t
  end.

Definition argmin (l : list R) : result nat :=
  match l with
  | [] => Raise (ValueError "attempt to get argmin of an empty sequence")
  | x :: t => Ok (argmin_from 0 x 1 t)
  end.

(** [np.linspace(start, stop, num)] with [endpoint=True] *)
Definition linspace (start stop : R) (num : nat) : list R :=
  match num with
  | O => []
  | S O => [start]
  | S (S _ as div) =>
      let step := (stop - start) / INR div in
      map (fun i => INR i * step + start) (seq 0 div) ++ [stop]
  end.

(** [np.logspace(start, stop, num, endpoint=True)], base 10 *)
Definition logspace (start stop : R) (num : nat) : list R :=
  map (fun e => Rpower 10 e) (linspace start stop num).

(** [np.floor] *)
Definition floor (x : R) : R := IZR (Zfloor x).

(** [np.arange(start, stop)] with the default step 1: [ceil(stop - start)]
    values [start + i]. *)
Definition arange (start stop : R) : list R :=
  map (fun i => start + INR i) (seq 0 (Z.to_nat (Zceil (stop - start)))).

(** [np.mean] of a non-empty array *)
Definition mean (l : list R) : R := sum l / INR (List.length l).

(** [np.searchsorted(a, v)] (side ['left']) on a sorted array: the number
    of leading elements below [v]. *)
Fixpoint searchsorted (a : list R) (v : R) : nat :=
  match a with
  | [] => O
  | x :: t => if x <? v then S (searchsorted t v) else O
  end.

End Np.

(** [a / b] for two complex numbers *)
Definition Cdiv (a b : C) : C :=
  let d := real b * real b + imag b * imag b in
  mkC ((real a * real b + imag a * imag b) / d)
      ((imag a * real b - real a * imag b) / d).

(* ------------------------------------------------------------------ *)
(** ** The LTI system view *)

(** Modelled from the spec: the system classes ([statesp.py], [xferfcn.py],
    [lti.py]) are not part of the file.  A system reports its class (for
    the [isinstance] test of [nyquist_plot]), its timebase as the tagged
    variant [Continuous] / [Discrete dt], its poles and zeros, and whether
    it is single-input single-output.  A [FrequencyResponseData] system has
    no pole/zero introspection: [sys.pole()] raises [NotImplementedError]
    there. *)
Inductive sysclass : Type := StateSpace | TransferFunction | FrequencyResponseData.

Inductive timebase : Type :=
| Continuous
| Discrete (dt : R).

Record LTI : Type := mkLTI {
  cls : sysclass;
  dt : timebase;
  pole : list C;
  zero : list C;
  issiso : bool
}.

Definition isctime (sys : LTI) : bool :=
  match dt sys with Continuous => true | Discrete _ => false end.

(** [isinstance(sys, (StateSpace, TransferFunction))] *)
Definition is_statespace_or_tf (sys : LTI) : bool :=
  match cls sys with
  | StateSpace | TransferFunction => true
  | FrequencyResponseData => false
  end.

(* ------------------------------------------------------------------ *)
(** ** Omega selector: [_default_frequency_range], [_determine_omega_vector] *)

(** [_freqplot_defaults] *)
Definition default_number_of_samples : nat := 1000.
Definition default_feature_periphery_decades : R := 1.

(** One pass of the body of [for sys in syslist] in
    [_default_frequency_range]; the state is
    [(features, freq_interesting)].  The [try ... except
    NotImplementedError: pass] leaves [features] untouched for a system
    without pole/zero introspection. *)
Definition collect_features (st : list R * list R) (sys : LTI)
  : list R * list R :=
  let '(features, freq_interesting) := st in
  match dt sys with
  | Continuous =>
      if is_statespace_or_tf sys then
        let features_ := map Cabs (pole sys) ++ map Cabs (zero sys) in
        let toreplace := map (fun f => Np.isclose f 0) features_ in
        let features_ :=
          if Np.any toreplace
          then filter (fun f => negb (Np.isclose f 0)) features_
          else features_ in
        (features ++ features_, freq_interesting)
      else (features, freq_interesting)
  | Discrete dt =>
      let fn := PI * 1 / dt in
      let freq_interesting := freq_interesting ++ [fn * (9 / 10)] in
      if is_statespace_or_tf sys then
        let features_ := pole sys ++ zero sys in
        let toreplace (z : C) :=
          Np.isclose (imag z) 0
          && ((real z <=? 0) || (Rabs (real z - 1) <? 1 / 10000000000)) in
        let features_ :=
          if Np.any (map toreplace features_)
          then filter (fun z => negb (toreplace z)) features_
          else features_ in
        let features_ :=
          map (fun z => Cabs (Cdiv (Np.log z) (j_times dt))) features_ in
        (features ++ features_, freq_interesting)
      else (features, freq_interesting)
  end.

Definition _default_frequency_range (syslist : list LTI) (Hz : bool)
    (number_of_samples : option nat) (feature_periphery_decades : option R)
  : list R :=
  let number_of_samples :=
    match number_of_samples with
    | Some n => n
    | None => default_number_of_samples
    end in
  let feature_periphery_decades :=
    match feature_periphery_decades with
    | Some d => d
    | None => default_feature_periphery_decades
    end in
  let '(features, freq_interesting) :=
    fold_left collect_features syslist ([], []) in
  let features := match features with [] => [1] | _ => features end in
  let features := if Hz then map (fun f => f / (2 * PI)) features else features in
  let features := map Np.log10 features in
  let lsp_min :=
    Np.rint (Np.min (hd 0 features) (tl features) - feature_periphery_decades) in
  let lsp_max :=
    Np.rint (Np.max (hd 0 features) (tl features) + feature_periphery_decades) in
  let lsp_min := if Hz then lsp_min + Np.log10 (2 * PI) else lsp_min in
  let lsp_max := if Hz then lsp_max + Np.log10 (2 * PI) else lsp_max in
  let '(lsp_min, lsp_max) :=
    match freq_interesting with
    | [] => (lsp_min, lsp_max)
    | f :: fs =>
        (Rmin lsp_min (Np.log10 (Np.min f fs)),
         Rmax lsp_max (Np.log10 (Np.max f fs)))
    end in
  match number_of_samples with
  | O => Np.logspace lsp_min lsp_max 50
  | _ => Np.logspace lsp_min lsp_max number_of_samples
  end.

Definition _determine_omega_vector (syslist : list LTI)
    (omega_in omega_limits : option (list R)) (omega_num : nat) (Hz : bool)
  : result (list R * bool) :=
  match omega_in with
  | None =>
      match omega_limits with
      | None =>
          Ok (_default_frequency_range syslist Hz (Some omega_num) None, false)
      | Some omega_limits =>
          match omega_limits with
          | [lo; hi] =>
              Ok (Np.logspace (Np.log10 lo) (Np.log10 hi) omega_num, true)
          | _ => Raise (ValueError "len(omega_limits) must be 2")
          end
      end
  | Some omega_in => Ok (omega_in, true)
  end.

(* ------------------------------------------------------------------ *)
(** ** Contour builder: the contour part of [nyquist_plot] *)

(** [_nyquist_defaults] *)
Definition default_indent_radius : R := 1 / 10.
Definition default_indent_direction : string := "right".

(** [omega[0] = 0.] *)
Definition start_at_zero (omega : list R) : result (list R) :=
  match omega with
  | [] => Raise (IndexError 0 0)
  | _ :: t => Ok (0 :: t)
  end.

(** [np.hstack((omega_sys[omega_sys < nyquistfrq], nyquistfrq))] *)
Definition clip_to_nyquist (omega_sys : list R) (nyquistfrq : R) : list R :=
  filter (fun w => w <? nyquistfrq) omega_sys ++ [nyquistfrq].

(** The frequencies [omega_sys] of one system, shared by [nyquist_plot],
    [bode_plot] and [singular_values_plot]. *)
Definition omega_for_system (sys : LTI) (omega : list R)
    (omega_range_given : bool) : list R :=
  let omega_sys := omega in
  match dt sys with
  | Discrete dt =>
      let nyquistfrq := PI / dt in
      if negb omega_range_given
      then clip_to_nyquist omega_sys nyquistfrq
      else omega_sys
  | Continuous => omega_sys
  end.

(** The s-plane poles the contour is bent around. *)
Definition splane_poles_of (sys : LTI) : list C :=
  match dt sys with
  | Continuous => pole sys
  | Discrete dt =>
      let zplane_poles := pole sys in
      let zplane_poles :=
        filter (fun z => negb (Np.isclose (Cabs z) 0)) zplane_poles in
      map (fun z => Cdiv_real (Np.log z) dt) zplane_poles
  end.

(** [a[i]] on a list, raising [IndexError] out of range *)
Definition getitem {A : Type} (a : list A) (i : nat) : result A :=
  match nth_error a i with
  | Some x => Ok x
  | None => Raise (IndexError i (List.length a))
  end.

(** One pass of [for i, s in enumerate(splane_contour)]: the new value of
    [splane_contour[i]].  In the last branch the source builds a
    [ValueError] but has no [raise]: the statement has no effect. *)
Definition indent_point (splane_poles : list C) (indent_radius : R)
    (indent_direction : string) (s : C) : result C :=
  i <- Np.argmin (map (fun p => Cabs (Csub p s)) splane_poles) ;;
  let p := nth i splane_poles C0 in
  if Cabs (Csub s p) <? indent_radius then
    if (real p <? 0)
       || (Np.isclose (real p) 0 && (indent_direction =? "right")%string)
    then Ok (Cadd_real s (sqrt (indent_radius ^ 2 - imag (Csub s p) ^ 2)))
    else if (0 <? real p)
       || (Np.isclose (real p) 0 && (indent_direction =? "left")%string)
    then Ok (Csub_real s (sqrt (indent_radius ^ 2 - imag (Csub s p) ^ 2)))
    else Ok s
  else Ok s.

Definition indent_contour (sys : LTI) (omega_range_given : bool)
    (indent_radius : R) (indent_direction : string) (splane_contour : list C)
  : result (list C) :=
  let splane_poles := splane_poles_of sys in
  s1 <- getitem splane_contour 1 ;;
  let splane_contour :=
    if (indent_radius <? imag s1)
       && Np.any (map (fun p => Np.isclose (Cabs p) 0) splane_poles)
       && negb omega_range_given
    then map j_times (Np.linspace 0 indent_radius 50) ++ tl splane_contour
    else splane_contour in
  mapM (indent_point splane_poles indent_radius indent_direction)
       splane_contour.

(** The contour of one system: the body of [for sys in syslist] up to
    [contour = ...]. *)
Definition nyquist_contour (sys : LTI) (omega : list R)
    (omega_range_given : bool) (indent_radius : R) (indent_direction : string)
  : result (list C) :=
  if negb (issiso sys) then
    Raise (ControlMIMONotImplemented
             "Nyquist plot currently only supports SISO systems.")
  else
    let omega_sys := omega_for_system sys omega omega_range_given in
    let splane_contour := map j_times omega_sys in
    splane_contour <-
      (if is_statespace_or_tf sys && negb (indent_direction =? "none")%string
       then indent_contour sys omega_range_given indent_radius
                           indent_direction splane_contour
       else Ok splane_contour) ;;
    match dt sys with
    | Continuous => Ok splane_contour
    | Discrete dt => Ok (map (fun s => Cexp (Cscale s dt)) splane_contour)
    end.

(** The contours that the loop of [nyquist_plot] builds, system by
    system, up to [contour = ...] (line 763).  The evaluation of the
    response and the count (lines 766-770) are not part of it: see
    [nyquist_plot] below for the whole call. *)
Definition nyquist_contours (syslist : list LTI)
    (omega omega_limits : option (list R)) (omega_num : nat)
    (indent_radius : R) (indent_direction : string)
  : result (list (list C)) :=
  og <- _determine_omega_vector syslist omega omega_limits omega_num false ;;
  let '(omega, omega_range_given) := og in
  omega <- (if negb omega_range_given then start_at_zero omega else Ok omega) ;;
  mapM (fun sys => nyquist_contour sys omega omega_range_given
                                   indent_radius indent_direction) syslist.

(** [omega_sys] of [singular_values_plot]. *)
Definition singular_values_omega (sys : LTI) (omega : list R)
    (omega_range_given : bool) : list R :=
  omega_for_system sys omega omega_range_given.

(** [omega_complex] of [singular_values_plot]. *)
Definition singular_values_contour (sys : LTI) (omega : list R)
    (omega_range_given : bool) : list C :=
  let omega_sys := singular_values_omega sys omega omega_range_given in
  match dt sys with
  | Discrete dt => map (fun w => Cexp (Cscale (j_times w) dt)) omega_sys
  | Continuous => map j_times omega_sys
  end.

(* ------------------------------------------------------------------ *)
(** ** Phase unwrapping: [ctrlutil.unwrap] *)

Module Ctrlutil.

(** Modelled from the spec: the representative of [d] modulo [2*pi] in
    the half-open interval [(-pi, pi]]. *)
Definition wrap_diff (d : R) : R :=
  d - 2 * PI * IZR (Zceil ((d - PI) / (2 * PI))).

(** Modelled from the spec: [unwrap] is imported from [ctrlutil.py], which
    is not part of the file.  The spec describes it as standard phase
    unwrapping: the first sample is kept and every successive difference
    is wrapped into [(-pi, pi]], so that each sample is adjusted by a
    multiple of [2*pi]. *)
Fixpoint unwrap_from (prev_out prev_in : R) (angle : list R) : list R :=
  match angle with
  | [] => []
  | x :: t =>
      let y := prev_out + wrap_diff (x - prev_in) in
      y :: unwrap_from y x t
  end.

Definition unwrap (angle : list R) : list R :=
  match angle with
  | [] => []
  | a :: t => a :: unwrap_from a a t
  end.

End Ctrlutil.

(* ------------------------------------------------------------------ *)
(** ** Encirclement counter: the count part of [nyquist_plot] *)

(** [phase = -unwrap(np.angle(resp + 1))] *)
Definition encirclement_phase (resp : list C) : list R :=
  map Ropp (Ctrlutil.unwrap (map (fun r => Np.angle (Cadd_real r 1)) resp)).

(** [count = int(np.round(np.sum(np.diff(phase)) / np.pi, 0))] *)
Definition count_encirclements (resp : list C) : Z :=
  let phase := encirclement_phase resp in
  Np.round_half_even (Np.sum (Np.diff phase) / PI).

Section NyquistPlot.

(** Modelled from the spec: [resp = sys(contour)] is the system's own
    frequency response ([xferfcn.py], [statesp.py], not part of the
    file), one complex value per contour point.  Where the contour passes
    through a pole of the system the value is not a number; [None] stands
    for a response with such a sample. *)
Variable evaluate : LTI -> list C -> option (list C).

(** One pass of [for sys in syslist] of [nyquist_plot]: the count and the
    contour appended to [counts] and [contours].  With a response that
    holds a NaN the phase sum is NaN and [int(...)] raises. *)
Definition nyquist_system (sys : LTI) (omega : list R)
    (omega_range_given : bool) (indent_radius : R)
    (indent_direction : string) : result (Z * list C) :=
  contour <- nyquist_contour sys omega omega_range_given indent_radius
                             indent_direction ;;
  match evaluate sys contour with
  | Some resp => Ok (count_encirclements resp, contour)
  | None => Raise (ValueError "cannot convert float NaN to integer")
  end.

(** [nyquist_plot] with [plot=False], [return_contour=True]: the counts
    and the contours, before they are squeezed for a single system. *)
Definition nyquist_plot (syslist : list LTI)
    (omega omega_limits : option (list R)) (omega_num : nat)
    (indent_radius : R) (indent_direction : string)
  : result (list (Z * list C)) :=
  og <- _determine_omega_vector syslist omega omega_limits omega_num false ;;
  let '(omega, omega_range_given) := og in
  omega <- (if negb omega_range_given then start_at_zero omega else Ok omega) ;;
  mapM (fun sys => nyquist_system sys omega omega_range_given
                                  indent_radius indent_direction) syslist.

End NyquistPlot.

(** A jump of the angle by exactly half a turn (plus whole turns): the
    one case in which wrapping into a half-open interval has to pick a
    side. *)
Definition odd_multiple_of_pi (d : R) : Prop :=
  exists k : Z, d = IZR (2 * k + 1) * PI.

(* ------------------------------------------------------------------ *)
(** ** Phase continuity engine: the phase part of [bode_plot] *)

(** The Python values the keyword arguments [initial_phase] and
    [wrap_phase] can hold. *)
Inductive pyval : Type :=
| PyNone
| PyBool (b : bool)
| PyNum (x : R)
| PyOther (repr : string).

(** The two local variables of [bode_plot] that the loop over the systems
    re-binds. *)
Record phase_vars : Type := mkVars {
  initial_phase : pyval;
  wrap_phase : pyval
}.

Section Bode.

(** [unwrap] of [ctrlutil.py] and the phase returned by
    [sys.frequency_response(omega_sys)] are collaborators of
    [bode_plot]. *)
Variable unwrap : list R -> list R.
Variable frequency_response_phase : LTI -> list R -> list R.

(** The post-processing of the phase of one system, from
    [if initial_phase is None] to [phases.append(phase)]: the phase that
    is appended and the variables as the pass leaves them. *)
Definition bode_phase (deg : bool) (vars : phase_vars) (phase : list R)
  : result (list R * phase_vars) :=
  initial_phase <-
    match initial_phase vars with
    | PyNone =>
        Ok (match wrap_phase vars with PyBool true => 0 | _ => - PI end)
    | PyNum x => Ok (if deg then x / 180 * PI else x)
    | PyBool b =>
        let x := if b then 1 else 0 in
        Ok (if deg then x / 180 * PI else x)
    | PyOther _ => Raise (ValueError "initial_phase must be a number.")
    end ;;
  phase0 <- getitem phase 0 ;;
  let phase :=
    if PI <? Rabs (phase0 - initial_phase)
    then map (fun x => x - 2 * PI *
                IZR (Np.round_half_even ((phase0 - initial_phase) / (2 * PI))))
             phase
    else phase in
  match wrap_phase vars with
  | PyBool false =>
      Ok (unwrap phase, mkVars (PyNum initial_phase) (wrap_phase vars))
  | PyBool true =>
      Ok (phase, mkVars (PyNum initial_phase) (wrap_phase vars))
  | PyNum w =>
      let phase := unwrap phase in
      let w := if deg then w * (PI / 180) else w in
      let phase :=
        map (fun x => x + 2 * PI *
               Np.maximum0 (Np.ceil ((w - x) / (2 * PI)))) phase in
      Ok (phase, mkVars (PyNum initial_phase) (PyNum w))
  | _ => Raise (ValueError "wrap_phase must be bool or float.")
  end.

(** [for sys in syslist] of [bode_plot]: for every system the phase
    appended to [phases], paired with the variables after its pass. *)
Fixpoint bode_loop (deg : bool) (omega : list R) (omega_range_given : bool)
    (vars : phase_vars) (syslist : list LTI)
  : result (list (list R * phase_vars)) :=
  match syslist with
  | [] => Ok []
  | sys :: rest =>
      if negb (issiso sys) then
        Raise (ControlMIMONotImplemented
                 "Bode is currently only implemented for SISO systems.")
      else
        let omega_sys := omega_for_system sys omega omega_range_given in
        let phase := frequency_response_phase sys omega_sys in
        r <- bode_phase deg vars phase ;;
        rs <- bode_loop deg omega omega_range_given (snd r) rest ;;
        Ok (r :: rs)
  end.

(** The phases [bode_plot] returns and the initial-phase targets it used,
    system by system. *)
Definition bode_phases (syslist : list LTI)
    (omega omega_limits : option (list R)) (omega_num : nat)
    (Hz deg : bool) (initial_phase wrap_phase : pyval)
  : result (list (list R * phase_vars)) :=
  og <- _determine_omega_vector syslist omega omega_limits omega_num Hz ;;
  let '(omega, omega_range_given) := og in
  bode_loop deg omega omega_range_given
            (mkVars initial_phase wrap_phase) syslist.

End Bode.

(* ------------------------------------------------------------------ *)
(** ** Tick series of the phase axis: [gen_zero_centered_series] *)

(** The local function of [bode_plot] that places the phase ticks. *)
Definition gen_zero_centered_series (val_min val_max period : R) : list R :=
  let v1 := Np.ceil (val_min / period - 2 / 10) in
  let v2 := Np.floor (val_max / period + 2 / 10) in
  map (fun a => a * period) (Np.arange v1 (v2 + 1)).

(* ------------------------------------------------------------------ *)
(** ** Frequency labels: [get_pow1000], [gen_prefix] *)

Definition Reqb (x y : R) : bool := if Req_dec_T x y then true else false.

(** [get_pow1000]; the [Decimal] built from the number is idealised as
    the number itself. *)
Definition get_pow1000 (num : R) : Z :=
  let dnum := num in
  if Reqb dnum 0 then 0%Z
  else
    let dnum := if dnum <? 0 then - dnum else dnum in
    Zfloor (Np.log10 dnum / 3).

(** The table of [gen_prefix], from yotta down to yocto. *)
Definition si_prefixes : list string :=
  ["Y"; "Z"; "E"; "P"; "T"; "G"; "M"; "k"; EmptyString; "m"; "$\mu$";
   "n"; "p"; "f"; "a"; "z"; "y"]%string.

Definition gen_prefix (pow1000 : Z) : result string :=
  if (pow1000 <? -8)%Z || (8 <? pow1000)%Z then
    Raise (ValueError "Value is out of the range covered by the SI prefixes.")
  else getitem si_prefixes (Z.to_nat (8 - pow1000)).

(** The label [nyquist_plot] writes next to a point of frequency
    [omegapt]: the integer and the SI prefix that precede ['Hz']. *)
Definition frequency_label (omegapt : R) : result (Z * string) :=
  let f := omegapt / (2 * PI) in
  let pow1000 := Z.max (Z.min (get_pow1000 f) 8) (-8) in
  prefix <- gen_prefix pow1000 ;;
  Ok (Np.round_half_even (f / powerRZ 1000 pow1000), prefix).

(* ------------------------------------------------------------------ *)
(** ** [find_nearest_omega] *)

Definition find_nearest_omega (omega_list : list R) (omega : R) : result R :=
  i <- Np.argmin (map (fun w => Rabs (w - omega)) omega_list) ;;
  getitem omega_list i.

(* ------------------------------------------------------------------ *)
(** ** Arrow placement: the numerical part of [_add_arrows_to_line2D] *)

(** [s = np.cumsum(np.sqrt(np.diff(x) ** 2 + np.diff(y) ** 2))] for the
    data [x], [y] of a line, given as its list of points. *)
Definition arc_length (line : list (R * R)) : list R :=
  let x := map fst line in
  let y := map snd line in
  Np.cumsum (map (fun d => sqrt (fst d ^ 2 + snd d ^ 2))
                 (combine (Np.diff x) (Np.diff y))).

(** [a[-1]] *)
Definition getitem_last (a : list R) : result R :=
  match a with
  | [] => Raise (IndexError 0 0)
  | _ => Ok (last a 0)
  end.

(** [a[lo:hi]] *)
Definition slice (a : list R) (lo hi : nat) : list R :=
  firstn (hi - lo) (skipn lo a).

(** One pass of [for loc in arrow_locs]: the tail and the head of the
    arrow. *)
Definition arrow_at (line : list (R * R)) (dir : Z) (loc : R)
  : result ((R * R) * (R * R)) :=
  let x := map fst line in
  let y := map snd line in
  let s := arc_length line in
  s_last <- getitem_last s ;;
  let n := Np.searchsorted s (s_last * loc) in
  if (dir =? 1)%Z then
    xn <- getitem x n ;;
    yn <- getitem y n ;;
    Ok ((xn, yn),
        (Np.mean (slice x n (n + 2)), Np.mean (slice y n (n + 2))))
  else if (dir =? -1)%Z then
    xn <- getitem x (n + 1) ;;
    yn <- getitem y (n + 1) ;;
    Ok ((xn, yn),
        (Np.mean (slice x n (n + 2)), Np.mean (slice y n (n + 2))))
  else Raise (ValueError "unknown value for keyword 'dir'").

(** [arrow_pos] of [nyquist_plot] for an integer [arrows = N]:
    [np.linspace(0.5/N, 1 + 0.5/N, N, endpoint=False)].  With [N = 0] the
    division [0.5/N] raises [ZeroDivisionError]: that is the [None]
    case. *)
Definition nyquist_arrow_pos (N : nat) : option (list R) :=
  match N with
  | O => None
  | _ =>
      let start := (5 / 10) / INR N in
      let stop := 1 + (5 / 10) / INR N in
      let step := (stop - start) / INR N in
      Some (map (fun i => INR i * step + start) (seq 0 N))
  end.

(* ------------------------------------------------------------------ *)
(** ** Systems used in the scenarios *)

(** [1/z], sampled with [dt = 1] *)
Definition unit_delay : LTI :=
  mkLTI TransferFunction (Discrete 1) [C0] [] true.

(** [1/s]: one pole at the origin *)
Definition integrator : LTI :=
  mkLTI TransferFunction Continuous [C0] [] true.

(** [1/(s+1)]: one stable pole at [s = -1] *)
Definition first_order_lag : LTI :=
  mkLTI TransferFunction Continuous [mkC (-1) 0] [] true.

(** [1/(z-1)], sampled with [dt = 1]: one pole at [z = 1] *)
Definition discrete_integrator : LTI :=
  mkLTI TransferFunction (Discrete 1) [C1] [] true.

(** [H(s) = s]: one zero at the origin, no poles *)
Definition differentiator : LTI :=
  mkLTI TransferFunction Continuous [] [C0] true.

(** The phase of [H(jw) = jw]: a quarter turn at every positive
    frequency. *)
Definition differentiator_phase (sys : LTI) (omega_sys : list R) : list R :=
  map (fun _ => PI / 2) omega_sys.

(** A state-space system with more than one input or output *)
Definition mimo_plant : LTI :=
  mkLTI StateSpace Continuous [mkC (-1) 0] [] false.

(** The response of [1/s]: [1/s] at every point of the contour, not a
    number at [s = 0]. *)
Definition integrator_response (sys : LTI) (contour : list C)
  : option (list C) :=
  if existsb (fun s => Reqb (real s) 0 && Reqb (imag s) 0) contour
  then None
  else Some (map (fun s => Cdiv C1 s) contour).

(** [H(s) = s + 1]: one zero at [-1], no poles *)
Definition lead : LTI :=
  mkLTI TransferFunction Continuous [] [mkC (-1) 0] true.

(** The phase of [H(jw) = 1 + jw] for [w >= 0]: [atan(w)]. *)
Definition lead_phase (sys : LTI) (omega_sys : list R) : list R :=
  map atan omega_sys.

(** A constant gain: no poles and no zeros *)
Definition static_gain : LTI :=
  mkLTI TransferFunction Continuous [] [] true.

(** [1/((s+1)(s+1000))]: poles at [-1] and [-1000], no zeros *)
Definition two_pole_system : LTI :=
  mkLTI TransferFunction Continuous [mkC (-1) 0; mkC (-1000) 0] [] true.

(* ================================================================== *)
(** * Properties *)

(** ** Comparisons *)

Lemma Rltb_true (x y : R) : x < y -> (x <? y) = true.
Proof. intros H. unfold Rltb. destruct (Rlt_dec x y); [reflexivity | contradiction]. Qed.

Lemma Rltb_false (x y : R) : y <= x -> (x <? y) = false.
Proof. intros H. unfold Rltb. destruct (Rlt_dec x y); [lra | reflexivity]. Qed.

Lemma Rltb_inv_true (x y : R) : (x <? y) = true -> x < y.
Proof. unfold Rltb. destruct (Rlt_dec x y); [trivial | discriminate]. Qed.

Lemma Rltb_inv_false (x y : R) : (x <? y) = false -> y <= x.
Proof. unfold Rltb. destruct (Rlt_dec x y); [discriminate | lra]. Qed.

Lemma Rleb_true (x y : R) : x <= y -> (x <=? y) = true.
Proof. intros H. unfold Rleb. destruct (Rle_dec x y); [reflexivity | contradiction]. Qed.

Lemma Rleb_false (x y : R) : y < x -> (x <=? y) = false.
Proof. intros H. unfold Rleb. destruct (Rle_dec x y); [lra | reflexivity]. Qed.

Lemma Reqb_true (x y : R) : x = y -> Reqb x y = true.
Proof. intros H. unfold Reqb. destruct (Req_dec_T x y); [reflexivity | contradiction]. Qed.

Lemma Reqb_false (x y : R) : x <> y -> Reqb x y = false.
Proof. intros H. unfold Reqb. destruct (Req_dec_T x y); [contradiction | reflexivity]. Qed.

(** ** The error monad *)

Lemma mapM_unchanged {A : Type} (f : A -> result A) (l : list A) :
  (forall a, In a l -> f a = Ok a) -> mapM f l = Ok l.
Proof.
  induction l as [|a t IH]; intros Hf; [reflexivity|].
  cbn [mapM]. rewrite (Hf a (or_introl eq_refl)). cbn [bind].
  rewrite IH; [reflexivity|].
  intros b Hb. apply Hf. right. exact Hb.
Qed.

Lemma mapM_total {A B : Type} (f : A -> result B) (g : A -> B) (l : list A) :
  (forall a, In a l -> f a = Ok (g a)) -> mapM f l = Ok (map g l).
Proof.
  induction l as [|a t IH]; intros Hf; [reflexivity|].
  cbn [mapM map]. rewrite (Hf a (or_introl eq_refl)). cbn [bind].
  rewrite IH; [reflexivity|].
  intros b Hb. apply Hf. right. exact Hb.
Qed.

(** ** Complex modulus *)

Lemma Cabs_nonneg (z : C) : 0 <= Cabs z.
Proof. apply sqrt_pos. Qed.

Lemma Cabs_real (x : R) : Cabs (mkC x 0) = Rabs x.
Proof.
  unfold Cabs. cbn [real imag].
  replace (x * x + 0 * 0) with (Rsqr x) by (unfold Rsqr; ring).
  apply sqrt_Rsqr_abs.
Qed.

Lemma Cabs_imag (y : R) : Cabs (mkC 0 y) = Rabs y.
Proof.
  unfold Cabs. cbn [real imag].
  replace (0 * 0 + y * y) with (Rsqr y) by (unfold Rsqr; ring).
  apply sqrt_Rsqr_abs.
Qed.

Lemma Cabs_ge_real (z : C) : Rabs (real z) <= Cabs z.
Proof.
  unfold Cabs. rewrite <- sqrt_Rsqr_abs.
  apply sqrt_le_1_alt. unfold Rsqr. nra.
Qed.

Lemma Cabs_ge_imag (z : C) : Rabs (imag z) <= Cabs z.
Proof.
  unfold Cabs. rewrite <- sqrt_Rsqr_abs.
  apply sqrt_le_1_alt. unfold Rsqr. nra.
Qed.

Lemma Cabs_Csub_sym (a b : C) : Cabs (Csub a b) = Cabs (Csub b a).
Proof. unfold Cabs, Csub. cbn [real imag]. f_equal. ring. Qed.

Lemma isclose_far (a : R) : 1 / 100000000 < Rabs a -> Np.isclose a 0 = false.
Proof.
  intros H. unfold Np.isclose, Np.atol, Np.rtol.
  apply Rleb_false. rewrite Rminus_0_r, Rabs_R0. lra.
Qed.

Lemma isclose_zero : Np.isclose 0 0 = true.
Proof.
  unfold Np.isclose, Np.atol, Np.rtol. apply Rleb_true.
  rewrite Rminus_0_r, Rabs_R0. lra.
Qed.

(** ** Clipping at the Nyquist frequency *)

Lemma clip_to_nyquist_below (omega_sys : list R) (nyquistfrq : R) :
  Forall (fun w => w < nyquistfrq)
         (filter (fun w => w <? nyquistfrq) omega_sys).
Proof.
  apply Forall_forall. intros w Hw. apply filter_In in Hw.
  destruct Hw as [_ Hw]. apply Rltb_inv_true. exact Hw.
Qed.

(** C4. For a strictly discrete-time system with [dt = 1] and an
    automatically selected frequency range, the frequencies used for the
    evaluation, in [nyquist_plot] as in [singular_values_plot], end with
    [pi] and every sample before that last one is strictly below [pi];
    with a range given by the caller the frequencies are the caller's,
    neither clipped nor extended. *)
Theorem discrete_grid_ends_at_nyquist (sys : LTI) (omega : list R) :
  dt sys = Discrete 1 ->
  (exists below,
      omega_for_system sys omega false = below ++ [PI]
      /\ singular_values_omega sys omega false = below ++ [PI]
      /\ Forall (fun w => w < PI) below)
  /\ omega_for_system sys omega true = omega
  /\ singular_values_omega sys omega true = omega.
Proof.
  intros Hdt. unfold singular_values_omega, omega_for_system. rewrite Hdt.
  cbn [negb]. unfold clip_to_nyquist.
  replace (PI / 1) with PI by field.
  split; [|split; reflexivity].
  exists (filter (fun w => w <? PI) omega).
  split; [reflexivity|]. split; [reflexivity|].
  apply clip_to_nyquist_below.
Qed.

Lemma discrete_grid_ends_at_nyquist_witness :
  (exists below,
      omega_for_system unit_delay [1; 4] false = below ++ [PI]
      /\ singular_values_omega unit_delay [1; 4] false = below ++ [PI]
      /\ Forall (fun w => w < PI) below)
  /\ omega_for_system unit_delay [1; 4] true = [1; 4]
  /\ singular_values_omega unit_delay [1; 4] true = [1; 4].
Proof. apply (discrete_grid_ends_at_nyquist unit_delay [1; 4]). reflexivity. Defined.

(** ** Nearest pole *)

Lemma argmin_from_bound (l : list R) :
  forall (best_i : nat) (best : R) (i : nat),
    (best_i < i)%nat ->
    (Np.argmin_from best_i best i l < i + List.length l)%nat.
Proof.
  induction l as [|x t IH]; intros best_i best i Hlt; cbn [Np.argmin_from List.length].
  - lia.
  - destruct (x <? best).
    + specialize (IH i x (S i) (Nat.lt_succ_diag_r i)). lia.
    + specialize (IH best_i best (S i) (Nat.lt_lt_succ_r _ _ Hlt)). lia.
Qed.

Lemma argmin_in_range (l : list R) (k : nat) :
  Np.argmin l = Ok k -> (k < List.length l)%nat.
Proof.
  destruct l as [|x t]; cbn [Np.argmin]; [discriminate|].
  intros H. injection H as <-. cbn [List.length].
  pose proof (argmin_from_bound t 0 x 1 Nat.lt_0_1). lia.
Qed.

Lemma argmin_nonempty (x : R) (t : list R) :
  exists k, Np.argmin (x :: t) = Ok k.
Proof. eexists. reflexivity. Qed.

(** A point at distance at least [indent_radius] from every pole is left
    where it is. *)
Lemma indent_point_far (splane_poles : list C) (indent_radius : R)
    (indent_direction : string) (s : C) :
  splane_poles <> [] ->
  (forall p, In p splane_poles -> indent_radius <= Cabs (Csub s p)) ->
  indent_point splane_poles indent_radius indent_direction s = Ok s.
Proof.
  intros Hne Hfar. unfold indent_point.
  destruct splane_poles as [|p0 ps]; [contradiction|].
  destruct (argmin_nonempty (Cabs (Csub p0 s))
              (map (fun p => Cabs (Csub p s)) ps)) as [k Hk].
  change (map (fun p => Cabs (Csub p s)) (p0 :: ps))
    with (Cabs (Csub p0 s) :: map (fun p => Cabs (Csub p s)) ps).
  rewrite Hk. cbn [bind].
  apply argmin_in_range in Hk. cbn [List.length] in Hk.
  rewrite length_map in Hk.
  assert (Hin : In (nth k (p0 :: ps) C0) (p0 :: ps))
    by (apply nth_In; cbn [List.length]; lia).
  rewrite (Rltb_false _ _ (Hfar _ Hin)). reflexivity.
Qed.

(** The only exception of [indent_point] is the empty [argmin]. *)
Lemma indent_point_no_poles (indent_radius : R) (indent_direction : string)
    (s : C) :
  indent_point [] indent_radius indent_direction s
  = Raise (ValueError "attempt to get argmin of an empty sequence").
Proof. reflexivity. Qed.

(** C5. For a continuous-time state-space or transfer-function system
    without poles, the contour builder called with an indentation
    direction other than ['none'] never returns a contour: the call ends
    in an exception, and as soon as the system is SISO and the grid has
    the two points the builder inspects, that exception is the one of the
    nearest-pole [argmin] taken over an empty sequence. *)
Theorem empty_pole_set_raises (sys : LTI) (omega : list R)
    (omega_range_given : bool) (indent_radius : R)
    (indent_direction : string) :
  dt sys = Continuous ->
  is_statespace_or_tf sys = true ->
  pole sys = [] ->
  indent_direction <> "none"%string ->
  (exists e,
      nyquist_contour sys omega omega_range_given indent_radius
                      indent_direction = Raise e)
  /\ (issiso sys = true -> (2 <= List.length omega)%nat ->
      nyquist_contour sys omega omega_range_given indent_radius
                      indent_direction
      = Raise (ValueError "attempt to get argmin of an empty sequence")).
Proof.
  intros Hdt Hcls Hpole Hdir.
  apply String.eqb_neq in Hdir.
  unfold nyquist_contour, omega_for_system, indent_contour, splane_poles_of.
  rewrite Hdt, Hcls, Hpole, Hdir. cbn [negb andb map Np.any existsb].
  destruct (issiso sys); cbn [negb].
  2:{ split; [eexists; reflexivity | discriminate]. }
  destruct omega as [|w0 [|w1 ws]].
  - split; [eexists; reflexivity | cbn [List.length]; lia].
  - split; [eexists; reflexivity | cbn [List.length]; lia].
  - cbn [map getitem nth_error bind].
    rewrite andb_false_r. cbn [andb mapM].
    rewrite indent_point_no_poles. cbn [bind].
    split; [eexists; reflexivity | reflexivity].
Qed.

Lemma empty_pole_set_raises_witness :
  (exists e,
      nyquist_contour static_gain [1; 2] true (1 / 10) "right" = Raise e)
  /\ nyquist_contour static_gain [1; 2] true (1 / 10) "right"
     = Raise (ValueError "attempt to get argmin of an empty sequence").
Proof.
  destruct (empty_pole_set_raises static_gain [1; 2] true (1 / 10) "right")
    as [He Hv]; try reflexivity.
  - discriminate.
  - split; [exact He|]. apply Hv; [reflexivity|]. cbn [List.length]. lia.
Defined.

(** With a single pole, that pole is the nearest one. *)
Lemma indent_point_single (p : C) (indent_radius : R)
    (indent_direction : string) (s : C) :
  indent_point [p] indent_radius indent_direction s =
  if Cabs (Csub s p) <? indent_radius then
    if (real p <? 0)
       || (Np.isclose (real p) 0 && (indent_direction =? "right")%string)
    then Ok (Cadd_real s (sqrt (indent_radius ^ 2 - imag (Csub s p) ^ 2)))
    else if (0 <? real p)
       || (Np.isclose (real p) 0 && (indent_direction =? "left")%string)
    then Ok (Csub_real s (sqrt (indent_radius ^ 2 - imag (Csub s p) ^ 2)))
    else Ok s
  else Ok s.
Proof. reflexivity. Qed.

Lemma Cabs_j_times_origin (w : R) : Cabs (Csub (j_times w) C0) = Rabs w.
Proof.
  unfold Csub, j_times, C0. cbn [real imag].
  rewrite !Rminus_0_r. apply Cabs_imag.
Qed.

(** ** Indentation around the stable pole at [-1] *)

Lemma far_from_stable_pole (w : R) :
  1 / 10 <= Cabs (Csub (j_times w) (mkC (-1) 0)).
Proof.
  apply Rle_trans with (Rabs (real (Csub (j_times w) (mkC (-1) 0)))).
  - unfold Csub, j_times. cbn [real imag].
    replace (0 - -1) with 1 by ring. rewrite Rabs_R1. lra.
  - apply Cabs_ge_real.
Qed.

(** C3. For the continuous-time system with the single stable pole
    [s = -1] and [indent_radius = 0.1]: a point [s] closer than [0.1] to
    the pole gets its real part increased by
    [sqrt(indent_radius^2 - (s-p).imag^2)], its imaginary part kept; a
    point at distance at least [0.1] from the pole is returned unchanged;
    and the contour built over any grid of at least two frequencies is
    [1j * omega] itself. *)
Theorem stable_pole_indentation (indent_direction : string) :
  (forall s : C,
      Cabs (Csub s (mkC (-1) 0)) < 1 / 10 ->
      indent_point (pole first_order_lag) (1 / 10) indent_direction s
      = Ok (mkC (real s + sqrt ((1 / 10) ^ 2 - (imag s - 0) ^ 2)) (imag s)))
  /\ (forall s : C,
      (forall p, In p (pole first_order_lag) -> 1 / 10 <= Cabs (Csub s p)) ->
      indent_point (pole first_order_lag) (1 / 10) indent_direction s = Ok s)
  /\ (forall (omega : list R) (omega_range_given : bool),
      (2 <= List.length omega)%nat ->
      nyquist_contour first_order_lag omega omega_range_given (1 / 10)
                      indent_direction
      = Ok (map j_times omega)).
Proof.
  split; [|split].
  - intros s Hnear. cbn [first_order_lag pole].
    rewrite indent_point_single. rewrite (Rltb_true _ _ Hnear).
    cbn [real]. rewrite (Rltb_true (-1) 0) by lra. reflexivity.
  - intros s Hfar. apply indent_point_far; [discriminate | exact Hfar].
  - intros omega omega_range_given Hlen.
    unfold nyquist_contour, omega_for_system, indent_contour, splane_poles_of.
    cbn [first_order_lag issiso dt cls pole negb is_statespace_or_tf].
    destruct (negb (indent_direction =? "none")%string); cbn [andb];
      [|reflexivity].
    destruct omega as [|w0 [|w1 ws]]; cbn [List.length] in Hlen; try lia.
    cbn [map getitem nth_error bind Np.any existsb].
    rewrite Cabs_real.
    rewrite (isclose_far (Rabs (-1))).
    2:{ unfold Rabs at 2. destruct (Rcase_abs (-1)); rewrite Rabs_pos_eq; lra. }
    cbn [orb]. rewrite andb_false_r. cbn [andb].
    rewrite mapM_unchanged; [reflexivity|].
    intros s Hs.
    change (j_times w0 :: j_times w1 :: map j_times ws)
      with (map j_times (w0 :: w1 :: ws)) in Hs.
    apply in_map_iff in Hs. destruct Hs as [w [<- _]].
    apply indent_point_far; [discriminate|].
    intros p [<- | []]. apply far_from_stable_pole.
Qed.

Lemma stable_pole_indentation_witness :
  indent_point (pole first_order_lag) (1 / 10) "right" (mkC (-1) 0)
  = Ok (mkC (-1 + sqrt ((1 / 10) ^ 2 - (0 - 0) ^ 2)) 0)
  /\ indent_point (pole first_order_lag) (1 / 10) "right" (mkC 0 2)
     = Ok (mkC 0 2)
  /\ nyquist_contour first_order_lag [0; 1] true (1 / 10) "right"
     = Ok [mkC 0 0; mkC 0 1].
Proof.
  destruct (stable_pole_indentation "right") as [Hnear [Hfar Hall]].
  split; [|split].
  - apply (Hnear (mkC (-1) 0)).
    unfold Csub. cbn [real imag].
    replace (-1 - -1) with 0 by ring. replace (0 - 0) with 0 by ring.
    rewrite Cabs_real, Rabs_R0. lra.
  - apply (Hfar (mkC 0 2)). intros p [<- | []].
    apply (far_from_stable_pole 2).
  - apply (Hall [0; 1] true). cbn [List.length]. lia.
Defined.

(** ** Rounding *)

Lemma PI_bounds : 3 < PI <= 4.
Proof. pose proof PI2_3_2. pose proof PI_4. lra. Qed.

Lemma Zceil_eq (z : Z) (x : R) : IZR z - 1 < x <= IZR z -> Zceil x = z.
Proof.
  intros H. unfold Zceil.
  rewrite (Zfloor_eq (- z) (- x)); [lia|].
  rewrite opp_IZR. lra.
Qed.

Lemma round_half_even_between (z : Z) (x : R) :
  IZR z - 1 / 2 < x < IZR z + 1 / 2 -> Np.round_half_even x = z.
Proof.
  intros H. unfold Np.round_half_even.
  destruct (Rle_dec (IZR z) x) as [Hge | Hlt].
  - rewrite (Zfloor_eq z x) by lra.
    rewrite Rltb_true by lra. reflexivity.
  - rewrite (Zfloor_eq (z - 1) x) by (rewrite minus_IZR; lra).
    rewrite minus_IZR.
    rewrite Rltb_false by lra. rewrite Rltb_true by lra.
    f_equal. lia.
Qed.

Lemma round_half_even_IZR (z : Z) : Np.round_half_even (IZR z) = z.
Proof. apply round_half_even_between. lra. Qed.

(** ** Unwrapping *)

Lemma wrap_diff_small (d : R) : - PI < d <= PI -> Ctrlutil.wrap_diff d = d.
Proof.
  intros H. unfold Ctrlutil.wrap_diff.
  pose proof PI_bounds as HPI.
  rewrite (Zceil_eq 0 ((d - PI) / (2 * PI))).
  - ring.
  - split.
    + apply Rmult_lt_reg_r with (2 * PI); [lra|].
      unfold Rdiv. rewrite Rmult_assoc, Rinv_l by lra. lra.
    + apply Rmult_le_reg_r with (2 * PI); [lra|].
      unfold Rdiv. rewrite Rmult_assoc, Rinv_l by lra. lra.
Qed.

Lemma wrap_diff_0 : Ctrlutil.wrap_diff 0 = 0.
Proof. apply wrap_diff_small. pose proof PI_bounds. lra. Qed.

Lemma diff_unwrap_from (l : list R) :
  forall out prev,
    Np.diff (out :: Ctrlutil.unwrap_from out prev l)
    = map Ctrlutil.wrap_diff (Np.diff (prev :: l)).
Proof.
  induction l as [|x t IH]; intros out prev; [reflexivity|].
  cbn [Ctrlutil.unwrap_from].
  change (Np.diff (prev :: x :: t)) with ((x - prev) :: Np.diff (x :: t)).
  cbn [map].
  set (y := out + Ctrlutil.wrap_diff (x - prev)).
  change (Np.diff (out :: y :: Ctrlutil.unwrap_from y x t))
    with ((y - out) :: Np.diff (y :: Ctrlutil.unwrap_from y x t)).
  rewrite (IH y x). f_equal. unfold y. ring.
Qed.

(** The successive differences of the unwrapped sequence are the wrapped
    successive differences of the input. *)
Lemma diff_unwrap (l : list R) :
  Np.diff (Ctrlutil.unwrap l) = map Ctrlutil.wrap_diff (Np.diff l).
Proof.
  destruct l as [|a t]; [reflexivity|].
  cbn [Ctrlutil.unwrap]. apply diff_unwrap_from.
Qed.

Lemma diff_map_opp (l : list R) :
  Np.diff (map Ropp l) = map Ropp (Np.diff l).
Proof.
  induction l as [|x [|y t] IH]; try reflexivity.
  change (Np.diff (x :: y :: t)) with ((y - x) :: Np.diff (y :: t)).
  change (map Ropp (x :: y :: t)) with (- x :: map Ropp (y :: t)).
  change (map Ropp (y :: t)) with (- y :: map Ropp t) at 1.
  change (Np.diff (- x :: - y :: map Ropp t))
    with ((- y - - x) :: Np.diff (- y :: map Ropp t)).
  change (- y :: map Ropp t) with (map Ropp (y :: t)).
  rewrite IH. cbn [map]. f_equal. ring.
Qed.

Lemma sum_map_opp (l : list R) : Np.sum (map Ropp l) = - Np.sum l.
Proof.
  unfold Np.sum. induction l as [|x t IH]; cbn [map fold_right].
  - ring.
  - rewrite IH. ring.
Qed.

(** What the counter sums: the negated wrapped differences of the angle
    of [resp + 1]. *)
Lemma encirclement_sum (resp : list C) :
  Np.sum (Np.diff (encirclement_phase resp))
  = - Np.sum (map Ctrlutil.wrap_diff
                (Np.diff (map (fun r => Np.angle (Cadd_real r 1)) resp))).
Proof.
  unfold encirclement_phase.
  rewrite diff_map_opp, sum_map_opp, diff_unwrap. reflexivity.
Qed.

Lemma angle_of_one : Np.angle (Cadd_real C0 1) = 0.
Proof.
  unfold Np.angle, Np.arctan2, Cadd_real, C0. cbn [real imag].
  rewrite Rltb_true by lra.
  replace (0 / (0 + 1)) with 0 by field. apply atan_0.
Qed.

Lemma diff_repeat (c : R) (n : nat) :
  Np.diff (repeat c n) = repeat 0 (pred n).
Proof.
  induction n as [|[|m] IH]; try reflexivity.
  change (repeat c (S (S m))) with (c :: c :: repeat c m).
  change (Np.diff (c :: c :: repeat c m))
    with ((c - c) :: Np.diff (repeat c (S m))).
  rewrite IH. cbn [pred repeat]. f_equal. ring.
Qed.

Lemma sum_repeat_0 (n : nat) : Np.sum (repeat 0 n) = 0.
Proof.
  unfold Np.sum. induction n as [|n IH]; cbn [repeat fold_right];
    [reflexivity | rewrite IH; ring].
Qed.

(** C8. The encirclement count of a response that is 0 at every contour
    point, whatever the number of points, is 0. *)
Theorem count_encirclements_zero_response (n : nat) :
  count_encirclements (repeat C0 n) = 0%Z.
Proof.
  unfold count_encirclements. rewrite encirclement_sum.
  rewrite map_repeat, angle_of_one, diff_repeat, map_repeat, wrap_diff_0.
  rewrite sum_repeat_0.
  replace (- 0 / PI) with (IZR 0) by (unfold Rdiv; ring).
  apply round_half_even_IZR.
Qed.

(** ** The unresolved indentation direction *)

Lemma integrator_contour_unresolved :
  nyquist_contour integrator [1 / 20; 1] true (1 / 10) "up"
  = Ok [mkC 0 (1 / 20); mkC 0 1].
Proof.
  unfold nyquist_contour, integrator, omega_for_system, indent_contour,
    splane_poles_of.
  cbn [issiso dt cls pole negb is_statespace_or_tf map getitem nth_error
       bind andb tl String.eqb Ascii.eqb Bool.eqb].
  rewrite andb_false_r. cbn [mapM].
  rewrite !indent_point_single, !Cabs_j_times_origin.
  rewrite (Rabs_pos_eq (1 / 20)) by lra. rewrite Rabs_R1.
  rewrite (Rltb_true (1 / 20) (1 / 10)) by lra.
  rewrite (Rltb_false 1 (1 / 10)) by lra.
  cbn [C0 real String.eqb Ascii.eqb Bool.eqb andb].
  rewrite (Rltb_false 0 0) by lra.
  rewrite !andb_false_r. cbn [orb bind]. reflexivity.
Qed.

Lemma integrator_response_off_pole :
  integrator_response integrator [mkC 0 (1 / 20); mkC 0 1]
  = Some [mkC 0 (-20); mkC 0 (-1)].
Proof.
  unfold integrator_response. cbn [existsb real imag map].
  rewrite (Reqb_false (1 / 20) 0) by lra.
  rewrite (Reqb_false 1 0) by lra.
  rewrite !andb_false_r. cbn [orb].
  unfold Cdiv, C1. cbn [real imag].
  f_equal. f_equal; [|f_equal]; f_equal; field.
Qed.

Lemma integrator_count_off_pole :
  count_encirclements [mkC 0 (-20); mkC 0 (-1)] = 0%Z.
Proof.
  pose proof PI_bounds as HPI.
  assert (Ha1 : Np.angle (Cadd_real (mkC 0 (-20)) 1) = - atan 20).
  { unfold Np.angle, Np.arctan2, Cadd_real. cbn [real imag].
    rewrite Rltb_true by lra.
    replace (-20 / (0 + 1)) with (- (20)) by field. apply atan_opp. }
  assert (Ha2 : Np.angle (Cadd_real (mkC 0 (-1)) 1) = - (PI / 4)).
  { unfold Np.angle, Np.arctan2, Cadd_real. cbn [real imag].
    rewrite Rltb_true by lra.
    replace (-1 / (0 + 1)) with (- (1)) by field.
    rewrite atan_opp, atan_1. reflexivity. }
  assert (Hlo : PI / 4 < atan 20)
    by (rewrite <- atan_1; apply atan_increasing; lra).
  pose proof (atan_bound 20) as [_ Hhi].
  unfold count_encirclements. rewrite encirclement_sum.
  cbn [map Np.diff]. rewrite Ha1, Ha2.
  rewrite wrap_diff_small by lra.
  unfold Np.sum. cbn [map fold_right].
  apply round_half_even_between. split.
  - apply Rmult_lt_reg_r with PI; [lra|].
    unfold Rdiv. rewrite Rmult_assoc, Rinv_l by lra. lra.
  - apply Rmult_lt_reg_r with PI; [lra|].
    unfold Rdiv. rewrite Rmult_assoc, Rinv_l by lra. lra.
Qed.

(** C1. The integrator [1/s] has its pole exactly on the imaginary axis.
    Called with the frequencies [0.05, 1], the default radius and a
    direction that is neither ['right'] nor ['left'] (nor ['none']), the
    point [0.05j] is within the radius of the pole and no direction is
    resolved, yet [nyquist_plot] does not fail: it returns the count 0
    and the contour [0.05j, 1j], the first point left where it is. *)
Theorem unresolved_direction_returns_contour :
  nyquist_plot integrator_response [integrator] (Some [1 / 20; 1]) None 1000
               (1 / 10) "up"
  = Ok [(0%Z, [mkC 0 (1 / 20); mkC 0 1])].
Proof.
  unfold nyquist_plot. cbn [_determine_omega_vector bind negb mapM].
  unfold nyquist_system.
  rewrite integrator_contour_unresolved. cbn [bind].
  rewrite integrator_response_off_pole, integrator_count_off_pole.
  reflexivity.
Qed.

(** With the pole itself among the contour points the call does fail, but
    at the count and with the conversion error of a NaN, not with an
    error about the direction. *)
Lemma pole_on_contour_fails_at_count :
  nyquist_plot integrator_response [integrator] (Some [0; 1]) None 1000
               (1 / 10) "up"
  = Raise (ValueError "cannot convert float NaN to integer").
Proof.
  assert (Hcontour : nyquist_contour integrator [0; 1] true (1 / 10) "up"
                     = Ok [mkC 0 0; mkC 0 1]).
  { unfold nyquist_contour, integrator, omega_for_system, indent_contour,
      splane_poles_of.
    cbn [issiso dt cls pole negb is_statespace_or_tf map getitem nth_error
         bind andb tl String.eqb Ascii.eqb Bool.eqb].
    rewrite andb_false_r. cbn [mapM].
    rewrite !indent_point_single, !Cabs_j_times_origin.
    rewrite Rabs_R0, Rabs_R1.
    rewrite (Rltb_true 0 (1 / 10)) by lra.
    rewrite (Rltb_false 1 (1 / 10)) by lra.
    cbn [C0 real String.eqb Ascii.eqb Bool.eqb andb].
    rewrite (Rltb_false 0 0) by lra.
    rewrite !andb_false_r. cbn [orb bind]. reflexivity. }
  unfold nyquist_plot. cbn [_determine_omega_vector bind negb mapM].
  unfold nyquist_system. rewrite Hcontour. cbn [bind].
  unfold integrator_response. cbn [existsb real imag].
  rewrite (Reqb_true 0 0) by reflexivity. reflexivity.
Qed.

(** ** Wrapping at a threshold *)

Lemma threshold_shift_ge (w x : R) :
  w <= x + 2 * PI * Np.maximum0 (Np.ceil ((w - x) / (2 * PI))).
Proof.
  pose proof PI_bounds as HPI.
  unfold Np.maximum0, Np.ceil.
  pose proof (Zceil_bound ((w - x) / (2 * PI))) as [_ Hceil].
  pose proof (Rmax_r 0 (IZR (Zceil ((w - x) / (2 * PI))))) as Hmax.
  assert (Hq : (w - x) / (2 * PI)
               <= Rmax 0 (IZR (Zceil ((w - x) / (2 * PI))))) by lra.
  apply (Rmult_le_compat_l (2 * PI)) in Hq; [|lra].
  replace (2 * PI * ((w - x) / (2 * PI))) with (w - x) in Hq by (field; lra).
  lra.
Qed.

(** One pass of the loop, with the value [theta] that [wrap_phase] holds
    when the pass starts: the phase of a system with at least one sample
    is post-processed without error, and every sample appended to
    [phases] is at least the threshold the pass has used, [theta] itself
    or [theta * pi/180] with [deg] on.  This holds whatever [unwrap]
    returns. *)
Lemma wrap_threshold_lower_bound (unwrap : list R -> list R) (deg : bool)
    (vars : phase_vars) (phase : list R) (theta : R) :
  wrap_phase vars = PyNum theta ->
  (forall repr, initial_phase vars <> PyOther repr) ->
  phase <> [] ->
  exists (out : list R) (target : R),
    bode_phase unwrap deg vars phase
    = Ok (out, mkVars (PyNum target)
                      (PyNum (if deg then theta * (PI / 180) else theta)))
    /\ Forall (fun x => (if deg then theta * (PI / 180) else theta) <= x) out.
Proof.
  intros Hwrap Hinit Hne. unfold bode_phase. rewrite Hwrap.
  destruct phase as [|phase0 rest]; [contradiction|].
  cbn [getitem nth_error].
  destruct (initial_phase vars) as [| b | x | repr]; cbn [bind].
  4:{ exfalso. apply (Hinit repr). reflexivity. }
  all: eexists; eexists; split; [reflexivity|];
    apply Forall_forall; intros y Hy; apply in_map_iff in Hy;
    destruct Hy as [x0 [<- _]]; apply threshold_shift_ge.
Qed.

Lemma wrap_threshold_lower_bound_witness :
  exists (out : list R) (target : R),
    bode_phase Ctrlutil.unwrap true (mkVars PyNone (PyNum (-180))) [0; 1]
    = Ok (out, mkVars (PyNum target) (PyNum (-180 * (PI / 180))))
    /\ Forall (fun x => -180 * (PI / 180) <= x) out.
Proof.
  apply (wrap_threshold_lower_bound Ctrlutil.unwrap true
           (mkVars PyNone (PyNum (-180))) [0; 1] (-180)).
  - reflexivity.
  - intros repr. discriminate.
  - discriminate.
Defined.

(** ** The initial phase across a batch of systems *)

Lemma unwrap_singleton (x : R) : Ctrlutil.unwrap [x] = [x].
Proof. reflexivity. Qed.

(** C2. Two copies of the differentiator [H(s) = s] in one call at the
    single frequency 1 rad/s, [initial_phase] not given,
    [wrap_phase=False], [deg=True]; the raw phase of both is [pi/2].  The
    first system is shifted towards [-pi] and comes out as
    [pi/2 - 2*pi]; for the second system the target is [-pi/180 * pi],
    not [-pi], and its phase stays [pi/2]. *)
Theorem initial_phase_drifts_in_batch :
  bode_phases Ctrlutil.unwrap differentiator_phase
              [differentiator; differentiator]
              (Some [1]) None 1000 false true PyNone (PyBool false)
  = Ok [([PI / 2 - 2 * PI * 1], mkVars (PyNum (- PI)) (PyBool false));
        ([PI / 2], mkVars (PyNum (- PI / 180 * PI)) (PyBool false))]
  /\ - PI / 180 * PI <> - PI.
Proof.
  pose proof PI_bounds as HPI.
  split; [|nra].
  unfold bode_phases. cbn [_determine_omega_vector bind bode_loop
    differentiator issiso negb snd dt omega_for_system
    differentiator_phase map].
  unfold bode_phase at 1.
  cbn [initial_phase wrap_phase bind getitem nth_error].
  rewrite (Rltb_true PI (Rabs (PI / 2 - - PI)))
    by (rewrite Rabs_pos_eq; lra).
  rewrite (round_half_even_between 1 ((PI / 2 - - PI) / (2 * PI))).
  2:{ replace ((PI / 2 - - PI) / (2 * PI)) with (3 / 4) by (field; lra).
      lra. }
  cbn [map snd]. rewrite unwrap_singleton.
  unfold bode_phase.
  cbn [initial_phase wrap_phase bind getitem nth_error].
  rewrite (Rltb_false PI (Rabs (PI / 2 - - PI / 180 * PI))).
  2:{ rewrite Rabs_pos_eq; nra. }
  rewrite unwrap_singleton. reflexivity.
Qed.

Lemma maximum0_ceil (z : Z) (q : R) :
  (0 <= z)%Z -> IZR z - 1 < q <= IZR z ->
  Np.maximum0 (Np.ceil q) = IZR z.
Proof.
  intros Hz Hq. unfold Np.maximum0, Np.ceil. rewrite (Zceil_eq z q Hq).
  apply IZR_le in Hz. unfold Rmax. destruct (Rle_dec 0 (IZR z)); lra.
Qed.

(** C10. Two copies of the lead [H(s) = s + 1] in one call at the single
    frequency 1 rad/s, [wrap_phase=90] with [deg=True], [initial_phase]
    not given; the raw phase of both is [pi/4].  The threshold of 90
    degrees is [pi/2] rad.  The first system comes out at [9*pi/4], above
    the threshold; for the second system the threshold has been converted
    a second time, to [pi/2 * pi/180], and its phase stays [pi/4], below
    the threshold of the caller. *)
Theorem wrap_threshold_drifts_in_batch :
  bode_phases Ctrlutil.unwrap lead_phase [lead; lead]
              (Some [1]) None 1000 false true PyNone (PyNum 90)
  = Ok [([PI / 4 - 2 * PI * 1 + 2 * PI * 2],
         mkVars (PyNum (- PI)) (PyNum (90 * (PI / 180))));
        ([PI / 4 + 2 * PI * 0],
         mkVars (PyNum (- PI / 180 * PI))
                (PyNum (90 * (PI / 180) * (PI / 180))))]
  /\ PI / 4 + 2 * PI * 0 < 90 * (PI / 180).
Proof.
  pose proof PI_bounds as HPI.
  split; [|lra].
  unfold bode_phases. cbn [_determine_omega_vector bind bode_loop
    lead issiso negb snd dt omega_for_system lead_phase map].
  rewrite atan_1.
  unfold bode_phase at 1.
  cbn [initial_phase wrap_phase bind getitem nth_error].
  rewrite (Rltb_true PI (Rabs (PI / 4 - - PI)))
    by (rewrite Rabs_pos_eq; lra).
  rewrite (round_half_even_between 1 ((PI / 4 - - PI) / (2 * PI))).
  2:{ replace ((PI / 4 - - PI) / (2 * PI)) with (5 / 8) by (field; lra).
      lra. }
  cbn [map snd]. rewrite unwrap_singleton. cbn [map].
  rewrite (maximum0_ceil 2).
  2:{ lia. }
  2:{ replace ((90 * (PI / 180) - (PI / 4 - 2 * PI * 1)) / (2 * PI))
        with (9 / 8) by (field; lra).
      lra. }
  unfold bode_phase.
  cbn [initial_phase wrap_phase bind getitem nth_error].
  rewrite (Rltb_false PI (Rabs (PI / 4 - - PI / 180 * PI))).
  2:{ rewrite Rabs_pos_eq; nra. }
  rewrite unwrap_singleton. cbn [map].
  rewrite (maximum0_ceil 0).
  2:{ lia. }
  2:{ split.
      - apply Rmult_lt_reg_r with (2 * PI); [lra|].
        unfold Rdiv. rewrite Rmult_assoc, Rinv_l by lra. nra.
      - apply Rmult_le_reg_r with (2 * PI); [lra|].
        unfold Rdiv. rewrite Rmult_assoc, Rinv_l by lra. nra. }
  reflexivity.
Qed.

(** ** The default frequency range *)

Lemma ln_10_pos : 0 < ln 10.
Proof. rewrite <- ln_1. apply ln_increasing; lra. Qed.

Lemma log10_1 : Np.log10 1 = 0.
Proof. unfold Np.log10. rewrite ln_1. unfold Rdiv. ring. Qed.

Lemma log10_pow (n : nat) : Np.log10 (10 ^ n) = INR n.
Proof.
  unfold Np.log10. rewrite ln_pow by lra.
  pose proof ln_10_pos. field. lra.
Qed.

Lemma Rpower_10_IZR_neg1 : Rpower 10 (-1) = 1 / 10.
Proof.
  replace (-1) with (- (1)) by ring.
  rewrite Rpower_Ropp, Rpower_1 by lra. lra.
Qed.

Lemma Rpower_10_nat (n : nat) : Rpower 10 (INR n) = 10 ^ n.
Proof. apply Rpower_pow. lra. Qed.

Lemma Cabs_neg_real (x : R) : 0 <= x -> Cabs (mkC (- x) 0) = x.
Proof. intros H. rewrite Cabs_real, Rabs_Ropp. apply Rabs_pos_eq. exact H. Qed.

Lemma two_pole_features :
  fold_left collect_features [two_pole_system] ([], []) = ([1; 1000], []).
Proof.
  cbn [fold_left collect_features two_pole_system dt cls pole zero
       is_statespace_or_tf map app].
  replace (mkC (-1) 0) with (mkC (- (1)) 0) by (f_equal; lra).
  replace (mkC (-1000) 0) with (mkC (- (1000)) 0) by (f_equal; lra).
  rewrite !Cabs_neg_real by lra.
  rewrite (isclose_far 1) by (rewrite Rabs_pos_eq; lra).
  rewrite (isclose_far 1000) by (rewrite Rabs_pos_eq; lra).
  reflexivity.
Qed.

Lemma two_pole_default_range (n : nat) :
  (1 <= n)%nat ->
  _default_frequency_range [two_pole_system] false (Some n) None
  = Np.logspace (-1) 4 n.
Proof.
  intros Hn. unfold _default_frequency_range.
  rewrite two_pole_features. cbn [map hd tl].
  rewrite log10_1.
  replace 1000 with (10 ^ 3) by lra. rewrite log10_pow.
  unfold Np.min, Np.max, default_feature_periphery_decades.
  cbn [fold_left INR].
  rewrite Rmin_left, Rmax_right by lra.
  unfold Np.rint.
  replace (0 - 1) with (IZR (-1)) by lra.
  replace (1 + 1 + 1 + 1) with (IZR 4) by lra.
  rewrite !round_half_even_IZR.
  destruct n as [|n]; [lia | reflexivity].
Qed.

Lemma logspace_length (start stop : R) (n : nat) :
  List.length (Np.logspace start stop n) = n.
Proof.
  unfold Np.logspace, Np.linspace. rewrite length_map.
  destruct n as [|[|k]]; try reflexivity.
  rewrite length_app, length_map, length_seq. cbn [List.length]. lia.
Qed.

Lemma linspace_nth (start stop : R) (n i : nat) :
  (2 <= n)%nat -> (i < n)%nat ->
  nth i (Np.linspace start stop n) 0
  = start + INR i * ((stop - start) / INR (n - 1)).
Proof.
  intros Hn Hi. destruct n as [|[|k]]; try lia.
  unfold Np.linspace. cbv zeta.
  replace (S (S k) - 1)%nat with (S k) by lia.
  assert (HS : INR (S k) <> 0) by (apply not_0_INR; discriminate).
  set (f := fun j : nat => INR j * ((stop - start) / INR (S k)) + start).
  destruct (Nat.eq_dec i (S k)) as [-> | Hneq].
  - rewrite app_nth2 by (rewrite length_map, length_seq; lia).
    rewrite length_map, length_seq, Nat.sub_diag. cbn [nth].
    field. exact HS.
  - rewrite app_nth1 by (rewrite length_map, length_seq; lia).
    rewrite (nth_indep _ 0 (f 0%nat))
      by (rewrite length_map, length_seq; lia).
    rewrite map_nth, seq_nth by lia.
    unfold f. cbn [Nat.add]. ring.
Qed.

(** C6. For the system with poles [-1] and [-1000] and no zeros, with the
    default periphery of one decade and at least two samples asked for,
    the automatically selected grid is [logspace(-1, 4, n)]: it has [n]
    points, its point [i] is [10^(-1 + i*5/(n-1))], it starts at [0.1]
    and ends at [10000] rad/s, and the range is reported as not given. *)
Theorem two_pole_grid_spans_decades (n : nat) :
  (2 <= n)%nat ->
  let omega := _default_frequency_range [two_pole_system] false (Some n) None in
  _determine_omega_vector [two_pole_system] None None n false
  = Ok (omega, false)
  /\ List.length omega = n
  /\ (forall i, (i < n)%nat ->
        nth i omega 0 = Rpower 10 (-1 + INR i * (5 / INR (n - 1))))
  /\ hd 0 omega = 1 / 10
  /\ last omega 0 = 10000.
Proof.
  intros Hn omega. subst omega. cbn [_determine_omega_vector].
  rewrite two_pole_default_range by lia.
  split; [reflexivity|]. split; [apply logspace_length|].
  assert (Hnth : forall i, (i < n)%nat ->
            nth i (Np.logspace (-1) 4 n) 0
            = Rpower 10 (-1 + INR i * (5 / INR (n - 1)))).
  { intros i Hi. unfold Np.logspace.
    pose proof (logspace_length (-1) 4 n) as HL.
    unfold Np.logspace in HL. rewrite length_map in HL.
    set (g := fun e : R => Rpower 10 e).
    rewrite (nth_indep _ 0 (g 0)) by (rewrite length_map; lia).
    rewrite map_nth, linspace_nth by lia.
    unfold g. f_equal. f_equal. f_equal. f_equal. lra. }
  split; [exact Hnth|]. split.
  - pose proof (Hnth 0%nat ltac:(lia)) as H0.
    destruct (Np.logspace (-1) 4 n) as [|x t] eqn:E.
    + pose proof (logspace_length (-1) 4 n) as HL. rewrite E in HL.
      cbn [List.length] in HL. lia.
    + cbn [nth] in H0. cbn [hd]. rewrite H0. cbn [INR].
      replace (-1 + 0 * (5 / INR (n - 1))) with (-1) by lra.
      apply Rpower_10_IZR_neg1.
  - destruct n as [|[|k]]; try lia.
    unfold Np.logspace, Np.linspace. cbv zeta.
    rewrite map_app. cbn [map]. rewrite last_last.
    replace 4 with (INR 4) by (cbn [INR]; lra).
    rewrite Rpower_10_nat. lra.
Qed.

Lemma two_pole_grid_spans_decades_witness :
  let omega :=
    _default_frequency_range [two_pole_system] false (Some 1000%nat) None in
  _determine_omega_vector [two_pole_system] None None 1000 false
  = Ok (omega, false)
  /\ List.length omega = 1000%nat
  /\ (forall i, (i < 1000)%nat ->
        nth i omega 0 = Rpower 10 (-1 + INR i * (5 / INR (1000 - 1))))
  /\ hd 0 omega = 1 / 10
  /\ last omega 0 = 10000.
Proof. apply (two_pole_grid_spans_decades 1000). lia. Defined.

(** ** The first point of an automatically selected contour *)

Lemma mapM_exists {A B : Type} (f : A -> result B) (l : list A) :
  (forall a, In a l -> exists b, f a = Ok b) -> exists bs, mapM f l = Ok bs.
Proof.
  induction l as [|a t IH]; intros Hf.
  - exists []. reflexivity.
  - destruct (Hf a (or_introl eq_refl)) as [b Hb].
    destruct IH as [bs Hbs].
    { intros x Hx. apply Hf. right. exact Hx. }
    exists (b :: bs). cbn [mapM]. rewrite Hb. cbn [bind].
    rewrite Hbs. reflexivity.
Qed.

Lemma mapM_head {A B : Type} (f : A -> result B) (a : A) (t : list A) (b : B) :
  f a = Ok b ->
  (forall x, In x t -> exists y, f x = Ok y) ->
  exists bs, mapM f (a :: t) = Ok (b :: bs).
Proof.
  intros Ha Ht. destruct (mapM_exists f t Ht) as [bs Hbs].
  exists bs. cbn [mapM]. rewrite Ha. cbn [bind]. rewrite Hbs. reflexivity.
Qed.

(** With at least one pole, [indent_point] returns a point. *)
Lemma indent_point_total (splane_poles : list C) (indent_radius : R)
    (indent_direction : string) (s : C) :
  splane_poles <> [] ->
  exists s', indent_point splane_poles indent_radius indent_direction s = Ok s'.
Proof.
  intros Hne. unfold indent_point.
  destruct splane_poles as [|p0 ps]; [contradiction|].
  cbn [map Np.argmin bind].
  repeat match goal with
         | |- context [if ?b then _ else _] => destruct b
         end; eexists; reflexivity.
Qed.

Lemma linspace_cons (start stop : R) (n : nat) :
  (2 <= n)%nat ->
  exists t,
    Np.linspace start stop n
    = (INR 0 * ((stop - start) / INR (n - 1)) + start) :: t.
Proof.
  intros Hn. destruct n as [|[|k]]; try lia.
  unfold Np.linspace. cbv zeta.
  replace (S (S k) - 1)%nat with (S k) by lia.
  cbn [seq map app]. eexists. reflexivity.
Qed.

Lemma logspace_head_pos (start stop : R) (n : nat) :
  (1 <= n)%nat ->
  exists x t, Np.logspace start stop n = x :: t /\ 0 < x.
Proof.
  intros Hn. unfold Np.logspace.
  destruct n as [|[|k]]; try lia.
  - cbn [Np.linspace map]. eexists. eexists. split; [reflexivity|].
    unfold Rpower. apply exp_pos.
  - destruct (linspace_cons start stop (S (S k))) as [t Ht]; [lia|].
    rewrite Ht. cbn [map]. eexists. eexists. split; [reflexivity|].
    unfold Rpower. apply exp_pos.
Qed.

(** The automatically selected grid is never empty and starts at a
    positive frequency. *)
Lemma default_range_head_pos (syslist : list LTI) (Hz : bool)
    (number_of_samples : option nat) (feature_periphery_decades : option R) :
  exists x t,
    _default_frequency_range syslist Hz number_of_samples
                             feature_periphery_decades = x :: t
    /\ 0 < x.
Proof.
  unfold _default_frequency_range.
  destruct (fold_left collect_features syslist ([], []))
    as [features freq_interesting].
  destruct freq_interesting as [|f fs];
    (destruct number_of_samples as [[|n]|];
     [ apply logspace_head_pos; lia
     | apply logspace_head_pos; lia
     | apply logspace_head_pos; unfold default_number_of_samples; lia ]).
Qed.

Lemma omega_for_system_head (sys : LTI) (t : list R) :
  (forall d, dt sys = Discrete d -> 0 < d) ->
  exists t', omega_for_system sys (0 :: t) false = 0 :: t'.
Proof.
  intros Hdt. unfold omega_for_system.
  destruct (dt sys) as [|d] eqn:E.
  - exists t. reflexivity.
  - cbn [negb]. unfold clip_to_nyquist. cbn [filter].
    rewrite Rltb_true.
    + eexists. reflexivity.
    + pose proof PI_bounds. specialize (Hdt d eq_refl).
      apply Rdiv_lt_0_compat; lra.
Qed.

Lemma Cexp_origin (d : R) : Cexp (Cscale (mkC 0 0) d) = C1.
Proof.
  unfold Cexp, Cscale, C1. cbn [real imag].
  rewrite Rmult_0_l, exp_0, cos_0, sin_0. f_equal; ring.
Qed.

Lemma Cabs_origin_sub (p : C) : Cabs (Csub (mkC 0 0) p) = Cabs p.
Proof. unfold Cabs, Csub. cbn [real imag]. f_equal. ring. Qed.

Lemma default_range_length (syslist : list LTI) (Hz : bool) (n : nat)
    (feature_periphery_decades : option R) :
  List.length (_default_frequency_range syslist Hz (Some n)
                                        feature_periphery_decades)
  = match n with O => 50%nat | _ => n end.
Proof.
  unfold _default_frequency_range.
  destruct (fold_left collect_features syslist ([], []))
    as [features freq_interesting].
  destruct freq_interesting as [|f fs]; destruct n as [|n];
    apply logspace_length.
Qed.

(** Indentation leaves the origin where it is when no pole is within
    [indent_radius] of it, also when the quarter circle is put in front of
    the contour. *)
Lemma indent_contour_keeps_origin (sys : LTI) (omega_range_given : bool)
    (indent_radius : R) (indent_direction : string) (s1 : C) (ss : list C) :
  splane_poles_of sys <> [] ->
  (forall p, In p (splane_poles_of sys) -> indent_radius <= Cabs p) ->
  exists rest,
    indent_contour sys omega_range_given indent_radius indent_direction
                   (mkC 0 0 :: s1 :: ss)
    = Ok (mkC 0 0 :: rest).
Proof.
  intros Hne Hfar. unfold indent_contour.
  cbn [getitem nth_error bind tl].
  assert (Horigin : indent_point (splane_poles_of sys) indent_radius
                      indent_direction (mkC 0 0) = Ok (mkC 0 0)).
  { apply indent_point_far; [exact Hne|].
    intros p Hp. rewrite Cabs_origin_sub. apply Hfar. exact Hp. }
  assert (Htotal : forall (l : list C) (x : C), In x l ->
            exists y, indent_point (splane_poles_of sys) indent_radius
                        indent_direction x = Ok y).
  { intros l x _. apply indent_point_total. exact Hne. }
  destruct ((indent_radius <? imag s1)
            && Np.any (map (fun p => Np.isclose (Cabs p) 0)
                           (splane_poles_of sys))
            && negb omega_range_given).
  - destruct (linspace_cons 0 indent_radius 50) as [t Ht]; [lia|].
    rewrite Ht. cbn [map app INR].
    replace (j_times (0 * ((indent_radius - 0) / INR (50 - 1)) + 0))
      with (mkC 0 0) by (unfold j_times; f_equal; ring).
    apply mapM_head; [exact Horigin | apply Htotal].
  - apply mapM_head; [exact Horigin | apply Htotal].
Qed.

Lemma integrator_features :
  fold_left collect_features [integrator] ([], []) = ([], []).
Proof.
  cbn [fold_left collect_features integrator dt cls pole zero
       is_statespace_or_tf map app].
  unfold C0. rewrite Cabs_real, Rabs_R0, isclose_zero.
  cbn [Np.any existsb orb filter]. rewrite isclose_zero.
  reflexivity.
Qed.

Lemma integrator_default_range :
  _default_frequency_range [integrator] false (Some 3%nat) None
  = [Rpower 10 (INR 0 * ((1 - -1) / INR 2) + -1);
     Rpower 10 (INR 1 * ((1 - -1) / INR 2) + -1);
     Rpower 10 1].
Proof.
  unfold _default_frequency_range.
  rewrite integrator_features. cbn [map hd tl].
  rewrite log10_1.
  unfold Np.min, Np.max, default_feature_periphery_decades, Np.rint.
  cbn [fold_left].
  replace (0 - 1) with (IZR (-1)) by lra.
  replace (0 + 1) with (IZR 1) by lra.
  rewrite !round_half_even_IZR.
  reflexivity.
Qed.

Lemma discrete_integrator_features :
  fold_left collect_features [discrete_integrator] ([], [])
  = ([], [PI * 1 / 1 * (9 / 10)]).
Proof.
  cbn [fold_left collect_features discrete_integrator dt cls pole zero
       is_statespace_or_tf map app].
  unfold C1. cbn [real imag].
  rewrite isclose_zero.
  rewrite (Rleb_false 1 0) by lra.
  rewrite (Rltb_true (Rabs (1 - 1))).
  2:{ replace (1 - 1) with 0 by ring. rewrite Rabs_R0. lra. }
  cbn [andb orb Np.any existsb filter negb map real imag].
  rewrite isclose_zero.
  rewrite (Rleb_false 1 0) by lra.
  rewrite (Rltb_true (Rabs (1 - 1))).
  2:{ replace (1 - 1) with 0 by ring. rewrite Rabs_R0. lra. }
  reflexivity.
Qed.

Lemma log10_between (x : R) : 1 / 10 <= x <= 10 -> -1 <= Np.log10 x <= 1.
Proof.
  intros [Hlo Hhi]. pose proof ln_10_pos as H10. unfold Np.log10.
  assert (Hx : 0 < x) by lra.
  assert (Hle1 : ln x <= ln 10).
  { destruct Hhi as [Hlt | ->]; [left; apply ln_increasing; lra | right; reflexivity]. }
  assert (Hge : - ln 10 <= ln x).
  { rewrite <- ln_Rinv by lra.
    destruct Hlo as [Hlt | <-].
    - left. apply ln_increasing; lra.
    - right. f_equal. lra. }
  split.
  - apply Rmult_le_reg_r with (ln 10); [exact H10|].
    unfold Rdiv. rewrite Rmult_assoc, Rinv_l by lra. lra.
  - apply Rmult_le_reg_r with (ln 10); [exact H10|].
    unfold Rdiv. rewrite Rmult_assoc, Rinv_l by lra. lra.
Qed.

Lemma discrete_integrator_default_range :
  _default_frequency_range [discrete_integrator] false (Some 3%nat) None
  = [Rpower 10 (INR 0 * ((1 - -1) / INR 2) + -1);
     Rpower 10 (INR 1 * ((1 - -1) / INR 2) + -1);
     Rpower 10 1].
Proof.
  pose proof PI_bounds as HPI.
  unfold _default_frequency_range.
  rewrite discrete_integrator_features. cbn [map hd tl].
  rewrite log10_1.
  unfold Np.min, Np.max, default_feature_periphery_decades, Np.rint.
  cbn [fold_left].
  replace (0 - 1) with (IZR (-1)) by lra.
  replace (0 + 1) with (IZR 1) by lra.
  rewrite !round_half_even_IZR.
  pose proof (log10_between (PI * 1 / 1 * (9 / 10))) as [Hlo Hhi]; [lra|].
  rewrite Rmin_left, Rmax_left by lra.
  reflexivity.
Qed.

Lemma splane_pole_of_one : Cdiv_real (Np.log C1) 1 = mkC 0 0.
Proof.
  unfold Cdiv_real, Np.log, Np.angle, Np.arctan2, C1. cbn [real imag].
  rewrite Cabs_real, Rabs_R1, ln_1.
  rewrite (Rltb_true 0 1) by lra.
  replace (0 / 1) with 0 by field. rewrite atan_0.
  f_equal. lra.
Qed.

Lemma indent_origin_right :
  indent_point [mkC 0 0] (1 / 10) "right" (mkC 0 0) = Ok (mkC (1 / 10) 0).
Proof.
  rewrite indent_point_single.
  unfold Csub. cbn [real imag].
  replace (0 - 0) with 0 by ring.
  rewrite Cabs_real, Rabs_R0.
  rewrite (Rltb_true 0 (1 / 10)) by lra.
  rewrite (Rltb_false 0 0) by lra. rewrite isclose_zero.
  cbn [String.eqb Ascii.eqb Bool.eqb andb orb].
  unfold Cadd_real. cbn [real imag]. f_equal. f_equal.
  replace ((1 / 10) ^ 2 - 0 ^ 2) with ((1 / 10) * (1 / 10)) by ring.
  rewrite sqrt_square by lra. ring.
Qed.

Lemma integrator_contour_first_point :
  exists rest,
    nyquist_contours [integrator] None None 3 (1 / 10) "right"
    = Ok [mkC (1 / 10) 0 :: rest]
    /\ mkC (1 / 10) 0 <> C0.
Proof.
  assert (Hneq : mkC (1 / 10) 0 <> C0).
  { intros H. apply (f_equal real) in H. cbn [real C0] in H. lra. }
  unfold nyquist_contours.
  cbn [_determine_omega_vector bind negb].
  rewrite integrator_default_range. cbn [start_at_zero bind mapM].
  unfold nyquist_contour, omega_for_system, indent_contour, splane_poles_of.
  cbn [integrator issiso dt cls pole negb is_statespace_or_tf map getitem
       nth_error bind andb tl String.eqb Ascii.eqb Bool.eqb].
  change C0 with (mkC 0 0).
  rewrite Cabs_real, Rabs_R0, isclose_zero.
  cbn [Np.any existsb orb andb j_times imag INR].
  replace (1 * ((1 - -1) / (1 + 1)) + -1) with 0 by lra.
  rewrite Rpower_O by lra.
  rewrite (Rltb_true (1 / 10) 1) by lra. cbn [andb].
  destruct (linspace_cons 0 (1 / 10) 50) as [t Ht]; [lia|].
  rewrite Ht. cbn [map app INR].
  replace (0 * ((1 / 10 - 0) / INR (50 - 1)) + 0) with 0 by ring.
  match goal with
  | |- context [mapM ?f (?a :: ?l)] =>
      destruct (mapM_head f a l (mkC (1 / 10) 0)) as [rest Hrest]
  end.
  - apply indent_origin_right.
  - intros x _. apply indent_point_total. discriminate.
  - exists rest. split; [|exact Hneq].
    rewrite Hrest. reflexivity.
Qed.

Lemma discrete_integrator_contour_first_point :
  exists rest,
      nyquist_contours [discrete_integrator] None None 3 (1 / 10) "right"
      = Ok [mkC (exp (1 / 10)) 0 :: rest]
      /\ mkC (exp (1 / 10)) 0 <> C1.
Proof.
  pose proof PI_bounds as HPI.
  unfold nyquist_contours.
  cbn [_determine_omega_vector bind negb].
  rewrite discrete_integrator_default_range. cbn [start_at_zero bind mapM].
  unfold nyquist_contour, omega_for_system, clip_to_nyquist, indent_contour, splane_poles_of.
  cbn [discrete_integrator issiso dt cls pole negb is_statespace_or_tf
       andb String.eqb Ascii.eqb Bool.eqb INR].
  replace (1 * ((1 - -1) / (1 + 1)) + -1) with 0 by lra.
  rewrite Rpower_O, Rpower_1 by lra.
  cbn [filter].
  rewrite (Rltb_true 0 (PI / 1)) by lra.
  rewrite (Rltb_true 1 (PI / 1)) by lra.
  rewrite (Rltb_false 10 (PI / 1)) by lra.
  cbn [app map getitem nth_error bind tl].
  change (Cabs C1) with (Cabs (mkC 1 0)).
  rewrite Cabs_real, Rabs_R1.
  rewrite (isclose_far 1) by (rewrite Rabs_R1; lra).
  cbn [negb map]. rewrite splane_pole_of_one.
  rewrite Cabs_real, Rabs_R0, isclose_zero.
  cbn [Np.any existsb orb andb j_times imag].
  rewrite (Rltb_true (1 / 10) 1) by lra. cbn [andb].
  destruct (linspace_cons 0 (1 / 10) 50) as [t Ht]; [lia|].
  rewrite Ht. cbn [map app INR].
  replace (0 * ((1 / 10 - 0) / INR (50 - 1)) + 0) with 0 by ring.
  match goal with
  | |- context [mapM ?f (?a :: ?l)] =>
      destruct (mapM_head f a l (mkC (1 / 10) 0)) as [rest Hrest]
  end.
  - apply indent_origin_right.
  - intros x _. apply indent_point_total. discriminate.
  - rewrite Hrest. cbn [bind map]. eexists. split.
    + unfold Cexp, Cscale. cbn [real imag].
      rewrite Rmult_0_l, cos_0, sin_0, Rmult_1_r, Rmult_0_r, Rmult_1_r.
      reflexivity.
    + intros H. apply (f_equal real) in H. cbn [real C1] in H.
      pose proof (exp_increasing 0 (1 / 10) ltac:(lra)) as Hexp.
      rewrite exp_0 in Hexp. lra.
Qed.

(** C7, as stated, fails.  With neither frequencies nor limits given,
    three samples, the default radius and direction: for the integrator
    [1/s] the returned contour starts at [0.1], not at the origin; for the
    discrete-time integrator [1/(z-1)] with [dt = 1] the returned z-plane
    contour starts at [exp(0.1)], not at 1. *)
Lemma auto_contour_first_point_indented :
  (exists rest,
      nyquist_contours [integrator] None None 3 (1 / 10) "right"
      = Ok [mkC (1 / 10) 0 :: rest]
      /\ mkC (1 / 10) 0 <> C0)
  /\ (exists rest,
      nyquist_contours [discrete_integrator] None None 3 (1 / 10) "right"
      = Ok [mkC (exp (1 / 10)) 0 :: rest]
      /\ mkC (exp (1 / 10)) 0 <> C1).
Proof.
  split.
  - exact integrator_contour_first_point.
  - exact discrete_integrator_contour_first_point.
Qed.

(** C7 (amended). With neither frequencies nor limits given, the selected
    grid is not empty and starts at a positive frequency; that first
    sample is overwritten with 0 before the systems are processed, and
    for every SISO system (with a positive sampling time when it is
    discrete) the s-plane contour [1j * omega_sys] starts at the origin.
    The contour that is returned for such a system starts at the origin
    (at 1 for a discrete-time system) when indentation does not apply to
    the system, or when it applies, the system has at least one s-plane
    pole, its grid has at least two points, and every s-plane pole is at
    distance at least [indent_radius] from the origin. *)
Theorem auto_contour_starts_at_origin (syslist : list LTI) (omega_num : nat)
    (indent_radius : R) (indent_direction : string) :
  let omega :=
    _default_frequency_range syslist false (Some omega_num) None in
  _determine_omega_vector syslist None None omega_num false = Ok (omega, false)
  /\ 0 < hd 0 omega
  /\ start_at_zero omega = Ok (0 :: tl omega)
  /\ nyquist_contours syslist None None omega_num indent_radius
                      indent_direction
     = mapM (fun sys => nyquist_contour sys (0 :: tl omega) false
                                        indent_radius indent_direction)
            syslist
  /\ forall sys : LTI,
       issiso sys = true ->
       (forall d, dt sys = Discrete d -> 0 < d) ->
       hd C1 (map j_times (omega_for_system sys (0 :: tl omega) false)) = C0
       /\ ((is_statespace_or_tf sys
            && negb (indent_direction =? "none")%string = false
            \/ (splane_poles_of sys <> []
                /\ (forall p, In p (splane_poles_of sys) ->
                              indent_radius <= Cabs p)
                /\ (2 <= List.length
                           (omega_for_system sys (0%R :: tl omega) false))%nat))
           ->
           exists rest,
             nyquist_contour sys (0 :: tl omega) false indent_radius
                             indent_direction
             = Ok (match dt sys with
                   | Continuous => C0
                   | Discrete _ => C1
                   end :: rest)).
Proof.
  intros omega.
  destruct (default_range_head_pos syslist false (Some omega_num) None)
    as [w0 [ws [Homega Hpos]]].
  fold omega in Homega.
  split; [reflexivity|].
  split; [rewrite Homega; exact Hpos|].
  split; [rewrite Homega; reflexivity|].
  split.
  { unfold nyquist_contours. cbn [_determine_omega_vector bind negb].
    fold omega. rewrite Homega. reflexivity. }
  intros sys Hsiso Hdt.
  destruct (omega_for_system_head sys (tl omega) Hdt) as [t' Hhead].
  split; [rewrite Hhead; reflexivity|].
  intros Hcond.
  assert (Hfinal : forall rest0,
            exists rest,
              match dt sys with
              | Continuous => Ok (mkC 0 0 :: rest0)
              | Discrete d =>
                  Ok (map (fun s => Cexp (Cscale s d)) (mkC 0 0 :: rest0))
              end
              = Ok (match dt sys with
                    | Continuous => C0
                    | Discrete _ => C1
                    end :: rest)).
  { intros rest0. destruct (dt sys) as [|d].
    - exists rest0. reflexivity.
    - eexists. cbn [map]. rewrite Cexp_origin. reflexivity. }
  unfold nyquist_contour. rewrite Hsiso. cbn [negb]. rewrite Hhead.
  destruct Hcond as [Hoff | [Hne [Hfar Hlen]]].
  - rewrite Hoff. cbn [bind map]. apply Hfinal.
  - destruct (is_statespace_or_tf sys
              && negb (indent_direction =? "none")%string).
    + rewrite Hhead in Hlen.
      destruct t' as [|w1 t'']; [cbn [List.length] in Hlen; lia|].
      destruct (indent_contour_keeps_origin sys false indent_radius
                  indent_direction (j_times w1) (map j_times t'') Hne Hfar)
        as [rest0 Hrest0].
      cbn [map]. unfold j_times at 1. rewrite Hrest0. cbn [bind].
      apply Hfinal.
    + cbn [bind map]. apply Hfinal.
Qed.

Lemma auto_contour_starts_at_origin_witness :
  exists rest,
    nyquist_contour first_order_lag
      (0 :: tl (_default_frequency_range [first_order_lag] false
                                         (Some 1000%nat) None))
      false (1 / 10) "right"
    = Ok (C0 :: rest).
Proof.
  destruct (auto_contour_starts_at_origin [first_order_lag] 1000 (1 / 10)
              "right") as [_ [_ [_ [_ Hsys]]]].
  destruct (Hsys first_order_lag) as [_ Hcontour].
  - reflexivity.
  - intros d Hd. discriminate Hd.
  - apply Hcontour. right. split; [discriminate|]. split.
    + intros p [<- | []].
      replace (mkC (-1) 0) with (mkC (- (1)) 0) by (f_equal; lra).
      rewrite Cabs_neg_real; lra.
    + unfold omega_for_system. cbn [first_order_lag dt List.length].
      pose proof (default_range_length [first_order_lag] false 1000 None) as HL.
      destruct (_default_frequency_range [first_order_lag] false
                  (Some 1000%nat) None) as [|x t].
      * cbn [List.length] in HL. lia.
      * cbn [List.length tl] in *. lia.
Defined.

(** ** Reversing the contour *)

Lemma round_half_even_opp (x : R) :
  Np.round_half_even (- x) = (- Np.round_half_even x)%Z.
Proof.
  pose proof (Zfloor_bound x) as Hf.
  destruct (Req_dec x (IZR (Zfloor x))) as [Hint | Hfrac].
  - rewrite Hint, <- opp_IZR, !round_half_even_IZR. reflexivity.
  - assert (Hfl : Zfloor (- x) = (- Zfloor x - 1)%Z).
    { apply Zfloor_eq. rewrite minus_IZR, opp_IZR. lra. }
    unfold Np.round_half_even. rewrite Hfl.
    rewrite minus_IZR, opp_IZR.
    set (f := Zfloor x) in *.
    destruct (Rlt_dec (x - IZR f) (1 / 2)) as [Hlo | Hnlo].
    + rewrite (Rltb_true (x - IZR f)) by exact Hlo.
      rewrite (Rltb_false (- x - (- IZR f - 1))) by lra.
      rewrite (Rltb_true (1 / 2)) by lra. lia.
    + destruct (Rlt_dec (1 / 2) (x - IZR f)) as [Hhi | Hnhi].
      * rewrite (Rltb_false (x - IZR f)) by lra.
        rewrite (Rltb_true (1 / 2) (x - IZR f)) by exact Hhi.
        rewrite (Rltb_true (- x - (- IZR f - 1))) by lra. lia.
      * rewrite (Rltb_false (x - IZR f)) by lra.
        rewrite (Rltb_false (1 / 2) (x - IZR f)) by lra.
        rewrite (Rltb_false (- x - (- IZR f - 1))) by lra.
        rewrite (Rltb_false (1 / 2) (- x - (- IZR f - 1))) by lra.
        rewrite Z.even_sub, Z.even_opp. cbn [Z.even].
        destruct (Z.even f); cbn [Bool.eqb]; lia.
Qed.

(** Away from the half-turn jumps, wrapping is an odd function. *)
Lemma wrap_diff_opp (d : R) :
  ~ odd_multiple_of_pi d ->
  Ctrlutil.wrap_diff (- d) = - Ctrlutil.wrap_diff d.
Proof.
  intros Hodd. pose proof PI_bounds as HPI.
  unfold Ctrlutil.wrap_diff.
  set (q := (d - PI) / (2 * PI)).
  assert (Hd : d = 2 * PI * q + PI) by (unfold q; field; lra).
  pose proof (Zceil_bound q) as [Hlo Hhi].
  assert (Hstrict : q < IZR (Zceil q)).
  { destruct Hhi as [Hlt | Heq]; [exact Hlt|].
    exfalso. apply Hodd. exists (Zceil q).
    rewrite plus_IZR, mult_IZR, <- Heq. rewrite Hd at 1. ring. }
  rewrite (Zceil_eq (- Zceil q) ((- d - PI) / (2 * PI))).
  - rewrite opp_IZR. ring.
  - replace ((- d - PI) / (2 * PI)) with (- q - 1)
      by (rewrite Hd; field; lra).
    rewrite opp_IZR. lra.
Qed.

Lemma diff_snoc (l : list R) (a b : R) :
  Np.diff (l ++ [a; b]) = Np.diff (l ++ [a]) ++ [b - a].
Proof.
  induction l as [|c [|e l''] IH]; try reflexivity.
  change (Np.diff ((c :: e :: l'') ++ [a; b]))
    with ((e - c) :: Np.diff ((e :: l'') ++ [a; b])).
  rewrite IH. reflexivity.
Qed.

Lemma diff_rev (l : list R) :
  Np.diff (rev l) = map Ropp (rev (Np.diff l)).
Proof.
  induction l as [|x [|y t] IH]; try reflexivity.
  change (Np.diff (x :: y :: t)) with ((y - x) :: Np.diff (y :: t)).
  change (rev (x :: y :: t)) with ((rev t ++ [y]) ++ [x]).
  rewrite <- app_assoc. cbn [app]. rewrite diff_snoc.
  change (rev t ++ [y]) with (rev (y :: t)). rewrite IH.
  cbn [rev]. rewrite map_app. cbn [map]. f_equal. f_equal. ring.
Qed.

Lemma sum_app (l1 l2 : list R) : Np.sum (l1 ++ l2) = Np.sum l1 + Np.sum l2.
Proof.
  unfold Np.sum. induction l1 as [|x t IH]; cbn [app fold_right].
  - ring.
  - rewrite IH. ring.
Qed.

Lemma sum_rev (l : list R) : Np.sum (rev l) = Np.sum l.
Proof.
  induction l as [|x t IH]; [reflexivity|].
  cbn [rev]. rewrite sum_app, IH. unfold Np.sum. cbn [fold_right]. ring.
Qed.

Lemma map_wrap_diff_opp (l : list R) :
  Forall (fun d => ~ odd_multiple_of_pi d) l ->
  map Ctrlutil.wrap_diff (map Ropp l) = map Ropp (map Ctrlutil.wrap_diff l).
Proof.
  induction 1 as [|d t Hd _ IH]; [reflexivity|].
  cbn [map]. rewrite IH, (wrap_diff_opp d Hd). reflexivity.
Qed.

(** C9 (amended). For every response whose angle about [-1] never jumps
    by an odd multiple of [pi] between two successive samples, the count
    of the reversed sequence is the negation of the count of the
    sequence. *)
Theorem count_encirclements_reversed (resp : list C) :
  Forall (fun d => ~ odd_multiple_of_pi d)
         (Np.diff (map (fun r => Np.angle (Cadd_real r 1)) resp)) ->
  count_encirclements (rev resp) = (- count_encirclements resp)%Z.
Proof.
  intros Hjumps. unfold count_encirclements.
  rewrite !encirclement_sum, map_rev, diff_rev.
  rewrite map_wrap_diff_opp by (apply Forall_rev; exact Hjumps).
  rewrite sum_map_opp, map_rev, sum_rev.
  rewrite <- round_half_even_opp. f_equal. unfold Rdiv. ring.
Qed.

Lemma angle_one_plus_j : Np.angle (Cadd_real (mkC 0 1) 1) = PI / 4.
Proof.
  unfold Np.angle, Np.arctan2, Cadd_real. cbn [real imag].
  rewrite Rltb_true by lra.
  replace (1 / (0 + 1)) with 1 by field. apply atan_1.
Qed.

Lemma quarter_turn_not_odd : ~ odd_multiple_of_pi (PI / 4 - 0).
Proof.
  intros [k Hk]. pose proof PI_bounds as HPI.
  assert (H4 : IZR (4 * (2 * k + 1)) = IZR 1).
  { rewrite mult_IZR.
    apply Rmult_eq_reg_r with PI; [|lra].
    rewrite Rmult_assoc, <- Hk. field. }
  apply eq_IZR in H4. lia.
Qed.

Lemma count_encirclements_reversed_witness :
  count_encirclements (rev [C0; mkC 0 1])
  = (- count_encirclements [C0; mkC 0 1])%Z.
Proof.
  apply (count_encirclements_reversed [C0; mkC 0 1]).
  cbn [map Np.diff]. rewrite angle_of_one, angle_one_plus_j.
  constructor; [exact quarter_turn_not_odd | constructor].
Defined.

Lemma angle_of_minus_one : Np.angle (Cadd_real (mkC (-2) 0) 1) = PI.
Proof.
  unfold Np.angle, Np.arctan2, Cadd_real. cbn [real imag].
  rewrite (Rltb_false 0 (-2 + 1)) by lra.
  rewrite (Rltb_true (-2 + 1) 0) by lra.
  rewrite (Rleb_true 0 0) by lra.
  replace (0 / (-2 + 1)) with 0 by field. rewrite atan_0. ring.
Qed.

Lemma wrap_diff_minus_pi : Ctrlutil.wrap_diff (0 - PI) = PI.
Proof.
  pose proof PI_bounds as HPI. unfold Ctrlutil.wrap_diff.
  rewrite (Zceil_eq (-1) ((0 - PI - PI) / (2 * PI))).
  - lra.
  - replace ((0 - PI - PI) / (2 * PI)) with (-1) by (field; lra). lra.
Qed.

(** C9, as stated, fails: the response [0, -2] has the angles [0, pi]
    about [-1]; its count and the count of the reversed sequence are both
    [-1]. *)
Lemma count_encirclements_half_turn :
  count_encirclements [C0; mkC (-2) 0] = (-1)%Z
  /\ count_encirclements (rev [C0; mkC (-2) 0]) = (-1)%Z
  /\ count_encirclements (rev [C0; mkC (-2) 0])
     <> (- count_encirclements [C0; mkC (-2) 0])%Z.
Proof.
  pose proof PI_bounds as HPI.
  assert (H1 : count_encirclements [C0; mkC (-2) 0] = (-1)%Z).
  { unfold count_encirclements. rewrite encirclement_sum.
    cbn [map Np.diff]. rewrite angle_of_one, angle_of_minus_one.
    rewrite wrap_diff_small by lra.
    unfold Np.sum. cbn [map fold_right].
    replace (- (PI - 0 + 0) / PI) with (IZR (-1)) by (field; lra).
    apply round_half_even_IZR. }
  assert (H2 : count_encirclements (rev [C0; mkC (-2) 0]) = (-1)%Z).
  { unfold count_encirclements. rewrite encirclement_sum.
    cbn [rev app map Np.diff]. rewrite angle_of_one, angle_of_minus_one.
    rewrite wrap_diff_minus_pi.
    unfold Np.sum. cbn [map fold_right].
    replace (- (PI + 0) / PI) with (IZR (-1)) by (field; lra).
    apply round_half_even_IZR. }
  split; [exact H1|]. split; [exact H2|].
  rewrite H1, H2. discriminate.
Qed.

(* ================================================================== *)
(** * Further properties of the code *)

(** ** SI prefixes and frequency labels *)

Lemma si_prefixes_length : List.length si_prefixes = 17%nat.
Proof. reflexivity. Qed.

Lemma si_prefixes_NoDup : NoDup si_prefixes.
Proof.
  unfold si_prefixes.
  repeat (constructor; [cbn [In]; intuition discriminate|]).
  constructor.
Qed.

Lemma gen_prefix_in_range (pow1000 : Z) :
  (-8 <= pow1000 <= 8)%Z ->
  gen_prefix pow1000
  = match nth_error si_prefixes (Z.to_nat (8 - pow1000)) with
    | Some prefix => Ok prefix
    | None => Raise (IndexError (Z.to_nat (8 - pow1000)) 17)
    end.
Proof.
  intros H. unfold gen_prefix.
  replace (pow1000 <? -8)%Z with false by (symmetry; apply Z.ltb_ge; lia).
  replace (8 <? pow1000)%Z with false by (symmetry; apply Z.ltb_ge; lia).
  reflexivity.
Qed.

Lemma gen_prefix_ok (pow1000 : Z) :
  (-8 <= pow1000 <= 8)%Z -> exists prefix, gen_prefix pow1000 = Ok prefix.
Proof.
  intros H. rewrite gen_prefix_in_range by exact H.
  destruct (nth_error si_prefixes (Z.to_nat (8 - pow1000))) as [prefix|] eqn:E.
  - exists prefix. reflexivity.
  - apply nth_error_None in E. rewrite si_prefixes_length in E. lia.
Qed.

Lemma gen_prefix_out_of_range (pow1000 : Z) :
  (pow1000 < -8 \/ 8 < pow1000)%Z ->
  gen_prefix pow1000
  = Raise (ValueError "Value is out of the range covered by the SI prefixes.").
Proof.
  intros H. unfold gen_prefix. destruct H as [H | H].
  - replace (pow1000 <? -8)%Z with true by (symmetry; apply Z.ltb_lt; lia).
    reflexivity.
  - replace (8 <? pow1000)%Z with true by (symmetry; apply Z.ltb_lt; lia).
    rewrite orb_true_r. reflexivity.
Qed.

(** X1. [gen_prefix] returns a prefix for every power of 1000 from -8 to
    8 and raises its [ValueError] for every other integer. *)
Theorem gen_prefix_domain (pow1000 : Z) :
  ((-8 <= pow1000 <= 8)%Z -> exists prefix, gen_prefix pow1000 = Ok prefix)
  /\ ((pow1000 < -8 \/ 8 < pow1000)%Z ->
      gen_prefix pow1000
      = Raise (ValueError
                 "Value is out of the range covered by the SI prefixes.")).
Proof.
  split.
  - apply gen_prefix_ok.
  - apply gen_prefix_out_of_range.
Qed.

Lemma gen_prefix_domain_witness :
  (exists prefix, gen_prefix 3 = Ok prefix)
  /\ gen_prefix 9
     = Raise (ValueError
                "Value is out of the range covered by the SI prefixes.").
Proof.
  split.
  - apply (proj1 (gen_prefix_domain 3)). lia.
  - apply (proj2 (gen_prefix_domain 9)). lia.
Defined.

(** X2. Two powers of 1000 that [gen_prefix] maps to the same prefix are
    the same power: the prefix identifies the scale. *)
Theorem gen_prefix_injective (p q : Z) (prefix : string) :
  gen_prefix p = Ok prefix -> gen_prefix q = Ok prefix -> p = q.
Proof.
  assert (Hrange : forall r s, gen_prefix r = Ok s ->
            (-8 <= r <= 8)%Z
            /\ nth_error si_prefixes (Z.to_nat (8 - r)) = Some s).
  { intros r s Hr.
    assert (Hin : (-8 <= r <= 8)%Z).
    { destruct (Z_lt_dec r (-8)) as [Hlo|Hlo];
        [rewrite (gen_prefix_out_of_range r) in Hr by lia; discriminate|].
      destruct (Z_lt_dec 8 r) as [Hhi|Hhi];
        [rewrite (gen_prefix_out_of_range r) in Hr by lia; discriminate|].
      lia. }
    split; [exact Hin|].
    rewrite gen_prefix_in_range in Hr by exact Hin.
    destruct (nth_error si_prefixes (Z.to_nat (8 - r)));
      [injection Hr as ->; reflexivity | discriminate]. }
  intros Hp Hq.
  destruct (Hrange p prefix Hp) as [Hpr Hpn].
  destruct (Hrange q prefix Hq) as [Hqr Hqn].
  assert (Heq : Z.to_nat (8 - p) = Z.to_nat (8 - q)).
  { apply (proj1 (NoDup_nth_error si_prefixes) si_prefixes_NoDup).
    - rewrite si_prefixes_length. lia.
    - rewrite Hpn, Hqn. reflexivity. }
  lia.
Qed.

Lemma gen_prefix_injective_witness :
  gen_prefix 1 = Ok "k"%string /\ gen_prefix 2 <> Ok "k"%string.
Proof.
  split; [reflexivity|].
  intros H2.
  pose proof (gen_prefix_injective 1 2 "k" eq_refl H2) as Heq.
  discriminate Heq.
Defined.

Lemma exp_le (x y : R) : x <= y -> exp x <= exp y.
Proof.
  intros [Hlt | ->]; [left; apply exp_increasing; exact Hlt | right; reflexivity].
Qed.

Lemma ln_1000 : ln 1000 = 3 * ln 10.
Proof.
  replace 1000 with (10 ^ 3) by lra. rewrite ln_pow by lra.
  cbn [INR]. ring.
Qed.

Lemma powerRZ_1000 (k : Z) : powerRZ 1000 k = exp (3 * IZR k * ln 10).
Proof.
  rewrite powerRZ_Rpower by lra. unfold Rpower. rewrite ln_1000.
  f_equal. ring.
Qed.

Lemma get_pow1000_abs (num : R) :
  num <> 0 -> get_pow1000 num = Zfloor (Np.log10 (Rabs num) / 3).
Proof.
  intros Hnz. unfold get_pow1000. rewrite Reqb_false by exact Hnz.
  destruct (Rlt_dec num 0) as [Hneg | Hpos].
  - rewrite Rltb_true by exact Hneg. rewrite Rabs_left by exact Hneg.
    reflexivity.
  - rewrite Rltb_false by lra. rewrite Rabs_right by lra. reflexivity.
Qed.

Lemma get_pow1000_bounds (num : R) :
  num <> 0 ->
  powerRZ 1000 (get_pow1000 num) <= Rabs num
  < powerRZ 1000 (get_pow1000 num + 1).
Proof.
  intros Hnz. rewrite get_pow1000_abs by exact Hnz.
  assert (Hpos : 0 < Rabs num) by (apply Rabs_pos_lt; exact Hnz).
  pose proof ln_10_pos as H10.
  set (d := Rabs num) in *.
  pose proof (Zfloor_bound (Np.log10 d / 3)) as [Hlo Hhi].
  set (k := Zfloor (Np.log10 d / 3)) in *.
  assert (Hln : ln d = Np.log10 d * ln 10)
    by (unfold Np.log10; field; lra).
  rewrite !powerRZ_1000, plus_IZR.
  assert (Hd : d = exp (Np.log10 d * ln 10))
    by (rewrite <- Hln; symmetry; apply exp_ln; exact Hpos).
  split.
  - rewrite Hd at 1. apply exp_le. nra.
  - rewrite Hd at 1. apply exp_increasing. nra.
Qed.

(** X3. For every number other than 0, [get_pow1000] returns the power
    [k] of 1000 for which the significand lies in [[1, 1000)]:
    [1000^k <= |num| < 1000^(k+1)]; for 0 it returns 0. *)
Theorem get_pow1000_significand (num : R) :
  get_pow1000 0 = 0%Z
  /\ (num <> 0 ->
      powerRZ 1000 (get_pow1000 num) <= Rabs num
      < powerRZ 1000 (get_pow1000 num + 1)).
Proof.
  split.
  - unfold get_pow1000. rewrite Reqb_true by reflexivity. reflexivity.
  - apply get_pow1000_bounds.
Qed.

Lemma get_pow1000_significand_witness :
  powerRZ 1000 (get_pow1000 2500) <= Rabs 2500
  < powerRZ 1000 (get_pow1000 2500 + 1).
Proof.
  apply (proj2 (get_pow1000_significand 2500)). lra.
Defined.

Lemma round_half_even_floor (x : R) :
  (Zfloor x <= Np.round_half_even x <= Zfloor x + 1)%Z.
Proof.
  unfold Np.round_half_even.
  repeat match goal with
         | |- context [if ?b then _ else _] => destruct b
         end; lia.
Qed.

(** X4. The frequency label of [nyquist_plot] is produced for every
    frequency: clamping the power of 1000 to [[-8, 8]] keeps
    [gen_prefix] from raising.  For a positive frequency whose power is
    not clamped, the integer that is written lies between 1 and 1000. *)
Theorem frequency_label_total (omegapt : R) :
  (exists number prefix, frequency_label omegapt = Ok (number, prefix))
  /\ (0 < omegapt ->
      (-8 <= get_pow1000 (omegapt / (2 * PI)) <= 8)%Z ->
      exists number prefix,
        frequency_label omegapt = Ok (number, prefix)
        /\ (1 <= number <= 1000)%Z).
Proof.
  pose proof PI_bounds as HPI.
  assert (Htotal : forall w, exists prefix,
            gen_prefix (Z.max (Z.min (get_pow1000 (w / (2 * PI))) 8) (-8))
            = Ok prefix).
  { intros w. apply gen_prefix_ok. lia. }
  split.
  - destruct (Htotal omegapt) as [prefix Hp].
    eexists. exists prefix. unfold frequency_label. rewrite Hp. reflexivity.
  - intros Hpos Hrange.
    destruct (Htotal omegapt) as [prefix Hp].
    eexists. exists prefix. unfold frequency_label. rewrite Hp.
    cbn [bind]. split; [reflexivity|].
    set (f := omegapt / (2 * PI)) in *.
    assert (Hf : 0 < f) by (unfold f; apply Rdiv_lt_0_compat; lra).
    replace (Z.max (Z.min (get_pow1000 f) 8) (-8)) with (get_pow1000 f)
      by lia.
    destruct (get_pow1000_bounds f) as [Hlo Hhi]; [lra|].
    rewrite Rabs_right in Hlo, Hhi by lra.
    set (k := get_pow1000 f) in *.
    assert (Hk : 0 < powerRZ 1000 k) by (apply powerRZ_lt; lra).
    assert (Hk1 : powerRZ 1000 (k + 1) = 1000 * powerRZ 1000 k).
    { rewrite powerRZ_add by lra. rewrite powerRZ_1. ring. }
    assert (Hq : 1 <= f / powerRZ 1000 k < 1000).
    { split.
      - apply Rmult_le_reg_r with (powerRZ 1000 k); [exact Hk|].
        unfold Rdiv. rewrite Rmult_assoc, Rinv_l by lra. lra.
      - apply Rmult_lt_reg_r with (powerRZ 1000 k); [exact Hk|].
        unfold Rdiv. rewrite Rmult_assoc, Rinv_l by lra. lra. }
    pose proof (round_half_even_floor (f / powerRZ 1000 k)) as Hr.
    assert (H1 : (1 <= Zfloor (f / powerRZ 1000 k))%Z)
      by (apply Zfloor_lub; lra).
    assert (H2 : (Zfloor (f / powerRZ 1000 k) < 1000)%Z).
    { apply lt_IZR. pose proof (Zfloor_bound (f / powerRZ 1000 k)). lra. }
    lia.
Qed.

Lemma frequency_label_total_witness :
  exists number prefix,
    frequency_label (2 * PI) = Ok (number, prefix)
    /\ (1 <= number <= 1000)%Z.
Proof.
  apply (proj2 (frequency_label_total (2 * PI))).
  - pose proof PI_bounds. lra.
  - replace (2 * PI / (2 * PI)) with 1 by (field; pose proof PI_bounds; lra).
    unfold get_pow1000. rewrite Reqb_false by lra.
    rewrite Rltb_false by lra. rewrite log10_1.
    replace (0 / 3) with (IZR 0) by lra. rewrite ZfloorZ. lia.
Defined.

(** ** The nearest sample *)

Lemma argmin_from_spec (l : list R) :
  forall (best_i : nat) (best : R) (i : nat),
    (best_i < i)%nat ->
    let k := Np.argmin_from best_i best i l in
    (k = best_i /\ Forall (Rle best) l)
    \/ ((i <= k)%nat /\ nth (k - i) l 0 < best
        /\ Forall (Rle (nth (k - i) l 0)) l).
Proof.
  induction l as [|x t IH]; intros best_i best i Hlt; cbn zeta.
  - left. split; [reflexivity | constructor].
  - cbn [Np.argmin_from]. destruct (Rlt_dec x best) as [Hx | Hx].
    + rewrite Rltb_true by exact Hx.
      specialize (IH i x (S i) (Nat.lt_succ_diag_r i)). cbn zeta in IH.
      right. destruct IH as [[Hk Hall] | [Hk [Hv Hall]]].
      * rewrite Hk, Nat.sub_diag. cbn [nth].
        split; [lia|]. split; [exact Hx|].
        constructor; [lra | exact Hall].
      * replace (Np.argmin_from i x (S i) t - i)%nat
          with (S (Np.argmin_from i x (S i) t - S i)) by lia.
        cbn [nth]. split; [lia|]. split; [lra|].
        constructor; [lra | exact Hall].
    + rewrite Rltb_false by lra.
      specialize (IH best_i best (S i) (Nat.lt_lt_succ_r _ _ Hlt)).
      cbn zeta in IH.
      destruct IH as [[Hk Hall] | [Hk [Hv Hall]]].
      * left. split; [exact Hk|]. constructor; [lra | exact Hall].
      * right.
        replace (Np.argmin_from best_i best (S i) t - i)%nat
          with (S (Np.argmin_from best_i best (S i) t - S i)) by lia.
        cbn [nth]. split; [lia|]. split; [exact Hv|].
        constructor; [lra | exact Hall].
Qed.

(** [argmin] returns the index of a smallest element. *)
Lemma argmin_minimal (l : list R) (k : nat) :
  Np.argmin l = Ok k -> Forall (Rle (nth k l 0)) l.
Proof.
  destruct l as [|x t]; cbn [Np.argmin]; [discriminate|].
  intros H. injection H as <-.
  pose proof (argmin_from_spec t 0 x 1 Nat.lt_0_1) as Hspec.
  cbn zeta in Hspec.
  destruct Hspec as [[Hk Hall] | [Hk [Hv Hall]]].
  - rewrite Hk. cbn [nth]. constructor; [lra | exact Hall].
  - replace (Np.argmin_from 0 x 1 t)
      with (S (Np.argmin_from 0 x 1 t - 1)) at 1 by lia.
    cbn [nth]. constructor; [lra | exact Hall].
Qed.

Lemma nth_map_R (f : R -> R) (l : list R) (k : nat) :
  (k < List.length l)%nat -> nth k (map f l) 0 = f (nth k l 0).
Proof.
  intros Hk. rewrite (nth_indep _ 0 (f 0)) by (rewrite length_map; exact Hk).
  apply map_nth.
Qed.

Lemma getitem_nth {A : Type} (a : list A) (i : nat) (d : A) :
  (i < List.length a)%nat -> getitem a i = Ok (nth i a d).
Proof.
  intros Hi. unfold getitem.
  rewrite (nth_error_nth' a d Hi). reflexivity.
Qed.

(** X5. On a non-empty list [find_nearest_omega] returns an element of
    the list that is at least as close to [omega] as every other element;
    on the empty list it raises the [ValueError] of [argmin]. *)
Theorem find_nearest_omega_nearest (omega_list : list R) (omega : R) :
  find_nearest_omega [] omega
  = Raise (ValueError "attempt to get argmin of an empty sequence")
  /\ (omega_list <> [] ->
      exists w,
        find_nearest_omega omega_list omega = Ok w
        /\ In w omega_list
        /\ forall v, In v omega_list -> Rabs (w - omega) <= Rabs (v - omega)).
Proof.
  split; [reflexivity|].
  intros Hne. unfold find_nearest_omega.
  destruct omega_list as [|w0 ws]; [contradiction|].
  destruct (argmin_nonempty (Rabs (w0 - omega))
              (map (fun w => Rabs (w - omega)) ws)) as [k Hk].
  set (l := w0 :: ws) in *.
  change (Rabs (w0 - omega) :: map (fun w => Rabs (w - omega)) ws)
    with (map (fun w => Rabs (w - omega)) l) in Hk.
  rewrite Hk. cbn [bind].
  pose proof (argmin_in_range _ _ Hk) as Hrange.
  rewrite length_map in Hrange.
  rewrite (getitem_nth l k 0 Hrange).
  exists (nth k l 0). split; [reflexivity|].
  split; [apply nth_In; exact Hrange|].
  intros v Hv.
  pose proof (argmin_minimal _ _ Hk) as Hmin.
  rewrite Forall_forall in Hmin.
  specialize (Hmin (Rabs (v - omega))
                (in_map (fun w => Rabs (w - omega)) l v Hv)).
  rewrite (nth_map_R (fun w => Rabs (w - omega)) l k Hrange) in Hmin. exact Hmin.
Qed.

Lemma find_nearest_omega_nearest_witness :
  exists w,
    find_nearest_omega [1; 10; 100] 12 = Ok w
    /\ In w [1; 10; 100]
    /\ forall v, In v [1; 10; 100] -> Rabs (w - 12) <= Rabs (v - 12).
Proof.
  apply (proj2 (find_nearest_omega_nearest [1; 10; 100] 12)). discriminate.
Defined.

(** X6. A frequency that is in the list is found: [find_nearest_omega]
    returns it unchanged. *)
Theorem find_nearest_omega_member (omega_list : list R) (omega : R) :
  In omega omega_list -> find_nearest_omega omega_list omega = Ok omega.
Proof.
  intros Hin.
  assert (Hne : omega_list <> []) by (intros ->; contradiction).
  unfold find_nearest_omega.
  destruct omega_list as [|w0 ws]; [contradiction|].
  destruct (argmin_nonempty (Rabs (w0 - omega))
              (map (fun w => Rabs (w - omega)) ws)) as [k Hk].
  set (l := w0 :: ws) in *.
  change (Rabs (w0 - omega) :: map (fun w => Rabs (w - omega)) ws)
    with (map (fun w => Rabs (w - omega)) l) in Hk.
  rewrite Hk. cbn [bind].
  pose proof (argmin_in_range _ _ Hk) as Hrange.
  rewrite length_map in Hrange.
  rewrite (getitem_nth l k 0 Hrange). f_equal.
  pose proof (argmin_minimal _ _ Hk) as Hmin.
  rewrite Forall_forall in Hmin.
  specialize (Hmin (Rabs (omega - omega))
                (in_map (fun w => Rabs (w - omega)) l omega Hin)).
  rewrite (nth_map_R (fun w => Rabs (w - omega)) l k Hrange) in Hmin.
  replace (omega - omega) with 0 in Hmin by ring. rewrite Rabs_R0 in Hmin.
  pose proof (Rabs_pos (nth k l 0 - omega)) as Hpos.
  assert (Hz : Rabs (nth k l 0 - omega) = 0) by lra.
  destruct (Req_dec (nth k l 0 - omega) 0) as [H0 | Hn0]; [lra|].
  apply Rabs_no_R0 in Hn0. contradiction.
Qed.

Lemma find_nearest_omega_member_witness :
  find_nearest_omega [1; 10; 100] 10 = Ok 10.
Proof.
  apply (find_nearest_omega_member [1; 10; 100] 10).
  right. left. reflexivity.
Defined.

(** ** Phase ticks *)

Lemma Zceil_IZR (z : Z) : Zceil (IZR z) = z.
Proof. apply Zceil_eq. lra. Qed.

Lemma Zceil_glb (z : Z) (x : R) : x <= IZR z -> (Zceil x <= z)%Z.
Proof.
  intros H. pose proof (Zceil_bound x) as [Hlo _].
  apply Z.lt_succ_r. apply lt_IZR. rewrite succ_IZR. lra.
Qed.

Lemma in_arange_int (a b : Z) (x : R) :
  In x (Np.arange (IZR a) (IZR b)) <-> exists k, (a <= k < b)%Z /\ x = IZR k.
Proof.
  unfold Np.arange. rewrite <- minus_IZR, Zceil_IZR. split.
  - intros Hin. apply in_map_iff in Hin. destruct Hin as [i [<- Hi]].
    apply in_seq in Hi. exists (a + Z.of_nat i)%Z. split; [lia|].
    rewrite plus_IZR, <- INR_IZR_INZ. reflexivity.
  - intros [k [Hk ->]]. apply in_map_iff. exists (Z.to_nat (k - a)). split.
    + rewrite INR_IZR_INZ, Z2Nat.id by lia. rewrite <- plus_IZR.
      f_equal. lia.
    + apply in_seq. lia.
Qed.

Lemma in_gen_zero_centered_series (val_min val_max period t : R) :
  In t (gen_zero_centered_series val_min val_max period)
  <-> exists k,
      (Zceil (val_min / period - 2 / 10) <= k
       <= Zfloor (val_max / period + 2 / 10))%Z
      /\ t = IZR k * period.
Proof.
  unfold gen_zero_centered_series, Np.ceil, Np.floor. cbv zeta.
  rewrite <- (plus_IZR _ 1). rewrite in_map_iff. split.
  - intros [a [<- Ha]]. apply in_arange_int in Ha.
    destruct Ha as [k [Hk ->]]. exists k. split; [lia | reflexivity].
  - intros [k [Hk ->]]. exists (IZR k). split; [reflexivity|].
    apply in_arange_int. exists k. split; [lia | reflexivity].
Qed.

(** X7. With a positive period, every tick that
    [gen_zero_centered_series] returns is an integer multiple of the
    period and lies in the range extended by a fifth of a period on each
    side: [val_min - 0.2*period <= tick <= val_max + 0.2*period]. *)
Theorem phase_ticks_in_range (val_min val_max period t : R) :
  0 < period ->
  In t (gen_zero_centered_series val_min val_max period) ->
  (exists k : Z, t = IZR k * period)
  /\ val_min - 2 / 10 * period <= t <= val_max + 2 / 10 * period.
Proof.
  intros Hp Hin. apply in_gen_zero_centered_series in Hin.
  destruct Hin as [k [[Hlo Hhi] ->]].
  split; [exists k; reflexivity|].
  pose proof (Zceil_bound (val_min / period - 2 / 10)) as [_ Hc].
  pose proof (Zfloor_bound (val_max / period + 2 / 10)) as [Hf _].
  apply IZR_le in Hlo, Hhi.
  assert (Hmin : val_min = val_min / period * period) by (field; lra).
  assert (Hmax : val_max = val_max / period * period) by (field; lra).
  split.
  - rewrite Hmin at 1. nra.
  - rewrite Hmax at 1. nra.
Qed.

Lemma phase_ticks_in_range_witness :
  In 0 (gen_zero_centered_series (-200) 20 45)
  /\ (exists k : Z, 0 = IZR k * 45)
  /\ -200 - 2 / 10 * 45 <= 0 <= 20 + 2 / 10 * 45.
Proof.
  assert (Hin : In 0 (gen_zero_centered_series (-200) 20 45)).
  { apply in_gen_zero_centered_series. exists 0%Z. split; [|lra].
    split.
    - apply Zceil_glb. lra.
    - apply Zfloor_lub. lra. }
  split; [exact Hin|].
  apply (phase_ticks_in_range (-200) 20 45 0); [lra | exact Hin].
Defined.

(** X8. With a positive period, every integer multiple of the period
    between [val_min] and [val_max] is one of the ticks; in particular 0
    is a tick whenever the range contains it. *)
Theorem phase_ticks_complete (val_min val_max period : R) (k : Z) :
  0 < period ->
  val_min <= IZR k * period <= val_max ->
  In (IZR k * period) (gen_zero_centered_series val_min val_max period).
Proof.
  intros Hp [Hlo Hhi]. apply in_gen_zero_centered_series.
  exists k. split; [|reflexivity].
  assert (Hq1 : val_min / period <= IZR k).
  { apply Rmult_le_reg_r with period; [exact Hp|].
    unfold Rdiv. rewrite Rmult_assoc, Rinv_l by lra. lra. }
  assert (Hq2 : IZR k <= val_max / period).
  { apply Rmult_le_reg_r with period; [exact Hp|].
    unfold Rdiv. rewrite Rmult_assoc, Rinv_l by lra. lra. }
  split.
  - apply Zceil_glb. lra.
  - apply Zfloor_lub. lra.
Qed.

Lemma phase_ticks_complete_witness :
  In (IZR (-4) * 45) (gen_zero_centered_series (-200) 20 45)
  /\ In (IZR 0 * 45) (gen_zero_centered_series (-200) 20 45).
Proof.
  split.
  - apply (phase_ticks_complete (-200) 20 45 (-4)); lra.
  - apply (phase_ticks_complete (-200) 20 45 0); lra.
Defined.

(** ** The frequency grid *)

Lemma Rpower_10_log10 (x : R) : 0 < x -> Rpower 10 (Np.log10 x) = x.
Proof.
  intros Hx. pose proof ln_10_pos as H10. unfold Rpower, Np.log10.
  replace (ln x / ln 10 * ln 10) with (ln x) by (field; lra).
  apply exp_ln. exact Hx.
Qed.

Lemma logspace_positive (start stop : R) (n : nat) :
  Forall (fun w => 0 < w) (Np.logspace start stop n).
Proof.
  apply Forall_forall. intros w Hw. unfold Np.logspace in Hw.
  apply in_map_iff in Hw. destruct Hw as [e [<- _]].
  unfold Rpower. apply exp_pos.
Qed.

Lemma logspace_nth (start stop : R) (n i : nat) :
  (2 <= n)%nat -> (i < n)%nat ->
  nth i (Np.logspace start stop n) 0
  = Rpower 10 (start + INR i * ((stop - start) / INR (n - 1))).
Proof.
  intros Hn Hi. unfold Np.logspace.
  pose proof (logspace_length start stop n) as HL.
  unfold Np.logspace in HL. rewrite length_map in HL.
  rewrite nth_map_R by lia. rewrite linspace_nth by lia. reflexivity.
Qed.

Lemma logspace_ends (start stop : R) (n : nat) :
  (2 <= n)%nat ->
  hd 0 (Np.logspace start stop n) = Rpower 10 start
  /\ last (Np.logspace start stop n) 0 = Rpower 10 stop.
Proof.
  intros Hn. destruct n as [|[|k]]; try lia.
  unfold Np.logspace, Np.linspace. cbv zeta. rewrite map_app. split.
  - cbn [seq map app hd INR]. f_equal. ring.
  - cbn [map]. rewrite last_last. reflexivity.
Qed.

(** X9. Without frequencies, limits given as exactly two positive values
    [lo], [hi] and at least two samples give a grid of [omega_num]
    positive points that starts at [lo] and ends at [hi], flagged as
    given by the caller; limits of any other length raise
    [ValueError]. *)
Theorem omega_limits_are_endpoints (syslist : list LTI)
    (omega_limits : list R) (lo hi : R) (omega_num : nat) (Hz : bool) :
  (List.length omega_limits <> 2%nat ->
   _determine_omega_vector syslist None (Some omega_limits) omega_num Hz
   = Raise (ValueError "len(omega_limits) must be 2"))
  /\ (0 < lo -> 0 < hi -> (2 <= omega_num)%nat ->
      exists omega,
        _determine_omega_vector syslist None (Some [lo; hi]) omega_num Hz
        = Ok (omega, true)
        /\ List.length omega = omega_num
        /\ hd 0 omega = lo
        /\ last omega 0 = hi
        /\ Forall (fun w => 0 < w) omega).
Proof.
  split.
  - intros Hlen. cbn [_determine_omega_vector].
    destruct omega_limits as [|a [|b [|c t]]]; cbn [List.length] in Hlen;
      try reflexivity; lia.
  - intros Hlo Hhi Hn. eexists. split; [reflexivity|].
    split; [apply logspace_length|].
    destruct (logspace_ends (Np.log10 lo) (Np.log10 hi) omega_num Hn)
      as [Hhd Hlast].
    rewrite Hhd, Hlast, !Rpower_10_log10 by assumption.
    split; [reflexivity|]. split; [reflexivity|].
    apply logspace_positive.
Qed.

Lemma omega_limits_are_endpoints_witness :
  _determine_omega_vector [] None (Some [1; 2; 3]) 1000 false
  = Raise (ValueError "len(omega_limits) must be 2")
  /\ exists omega,
      _determine_omega_vector [] None (Some [1 / 10; 100]) 1000 false
      = Ok (omega, true)
      /\ List.length omega = 1000%nat
      /\ hd 0 omega = 1 / 10
      /\ last omega 0 = 100
      /\ Forall (fun w => 0 < w) omega.
Proof.
  split.
  - apply (proj1 (omega_limits_are_endpoints [] [1; 2; 3] 1 1 1000 false)).
    cbn [List.length]. lia.
  - apply (proj2 (omega_limits_are_endpoints [] [] (1 / 10) 100 1000 false));
      [lra | lra | lia].
Defined.

Lemma fold_left_Rmin_le (l : list R) (x : R) : fold_left Rmin l x <= x.
Proof.
  revert x. induction l as [|y t IH]; intros x; cbn [fold_left]; [lra|].
  apply Rle_trans with (Rmin x y); [apply IH|].
  unfold Rmin. destruct (Rle_dec x y); lra.
Qed.

Lemma fold_left_Rmax_ge (l : list R) (x : R) : x <= fold_left Rmax l x.
Proof.
  revert x. induction l as [|y t IH]; intros x; cbn [fold_left]; [lra|].
  apply Rle_trans with (Rmax x y); [|apply IH].
  unfold Rmax. destruct (Rle_dec x y); lra.
Qed.

Lemma round_half_even_monotone (x y : R) :
  x <= y -> (Np.round_half_even x <= Np.round_half_even y)%Z.
Proof.
  intros Hxy.
  pose proof (Zfloor_le x y Hxy) as Hfl.
  destruct (Z.eq_dec (Zfloor x) (Zfloor y)) as [Heq | Hneq].
  - unfold Np.round_half_even. rewrite <- Heq.
    set (f := Zfloor x).
    destruct (Rlt_dec (y - IZR f) (1 / 2)) as [Hy | Hy].
    + rewrite (Rltb_true (y - IZR f)) by exact Hy.
      rewrite (Rltb_true (x - IZR f)) by lra. lia.
    + rewrite (Rltb_false (y - IZR f)) by lra.
      destruct (Rlt_dec (1 / 2) (y - IZR f)) as [Hy2 | Hy2].
      * rewrite (Rltb_true (1 / 2) (y - IZR f)) by exact Hy2.
        repeat match goal with
               | |- context [if ?b then _ else _] => destruct b
               end; lia.
      * rewrite (Rltb_false (1 / 2) (y - IZR f)) by lra.
        destruct (Rlt_dec (x - IZR f) (1 / 2)) as [Hx | Hx].
        -- rewrite (Rltb_true (x - IZR f)) by exact Hx.
           destruct (Z.even f); lia.
        -- rewrite (Rltb_false (x - IZR f)) by lra.
           rewrite (Rltb_false (1 / 2) (x - IZR f)) by lra. lia.
  - pose proof (round_half_even_floor x). pose proof (round_half_even_floor y).
    lia.
Qed.

(** The decade bounds of the automatic range are in order when the
    periphery is not negative. *)
Lemma default_range_is_logspace (syslist : list LTI) (Hz : bool)
    (number_of_samples : option nat) (feature_periphery_decades : option R) :
  (forall d, feature_periphery_decades = Some d -> 0 <= d) ->
  exists lsp_min lsp_max n,
    _default_frequency_range syslist Hz number_of_samples
                             feature_periphery_decades
    = Np.logspace lsp_min lsp_max n
    /\ lsp_min <= lsp_max.
Proof.
  intros Hper. unfold _default_frequency_range.
  destruct (fold_left collect_features syslist ([], []))
    as [features freq_interesting].
  set (per := match feature_periphery_decades with
              | Some d => d
              | None => default_feature_periphery_decades
              end).
  assert (Hp : 0 <= per).
  { unfold per. destruct feature_periphery_decades as [d|].
    - apply Hper. reflexivity.
    - unfold default_feature_periphery_decades. lra. }
  set (feats := map Np.log10
                  (if Hz
                   then map (fun f => f / (2 * PI))
                            match features with [] => [1] | _ :: _ => features end
                   else match features with [] => [1] | _ :: _ => features end)).
  pose proof (fold_left_Rmin_le (tl feats) (hd 0 feats)) as Hmin.
  pose proof (fold_left_Rmax_ge (tl feats) (hd 0 feats)) as Hmax.
  fold (Np.min (hd 0 feats) (tl feats)) in Hmin.
  fold (Np.max (hd 0 feats) (tl feats)) in Hmax.
  assert (Hrint : Np.rint (Np.min (hd 0 feats) (tl feats) - per)
                  <= Np.rint (Np.max (hd 0 feats) (tl feats) + per)).
  { unfold Np.rint. apply IZR_le. apply round_half_even_monotone. lra. }
  set (lo := Np.rint (Np.min (hd 0 feats) (tl feats) - per)) in *.
  set (hi := Np.rint (Np.max (hd 0 feats) (tl feats) + per)) in *.
  assert (Hhz : (if Hz then lo + Np.log10 (2 * PI) else lo)
                <= (if Hz then hi + Np.log10 (2 * PI) else hi))
    by (destruct Hz; lra).
  destruct (match number_of_samples with
            | Some n => n
            | None => default_number_of_samples
            end) as [|N];
    (destruct freq_interesting as [|f fs];
     [ eexists; eexists; eexists; split; [reflexivity | exact Hhz] |]).
  all: eexists; eexists; eexists; split; [reflexivity|].
  all: cbv beta.
  all: apply Rle_trans with (if Hz then lo + Np.log10 (2 * PI) else lo);
    [unfold Rmin; destruct (Rle_dec _ _); lra|].
  all: apply Rle_trans with (if Hz then hi + Np.log10 (2 * PI) else hi);
    [exact Hhz|].
  all: unfold Rmax; destruct (Rle_dec _ _); lra.
Qed.

Lemma logspace_sorted (start stop : R) (n i j : nat) :
  start <= stop -> (i <= j < n)%nat ->
  nth i (Np.logspace start stop n) 0 <= nth j (Np.logspace start stop n) 0.
Proof.
  intros Hle [Hij Hj].
  destruct (Nat.eq_dec i j) as [-> | Hneq]; [lra|].
  assert (Hn : (2 <= n)%nat) by lia.
  rewrite !logspace_nth by lia.
  apply Rle_Rpower; [lra|].
  assert (Hstep : 0 <= (stop - start) / INR (n - 1)).
  { apply Rmult_le_pos; [lra|]. left. apply Rinv_0_lt_compat.
    apply lt_0_INR. lia. }
  assert (HINR : INR i <= INR j) by (apply le_INR; exact Hij).
  nra.
Qed.

(** X10. Whatever the systems, the automatically selected grid has the
    number of samples asked for (50 when 0 is asked for) and every sample
    is a positive frequency. *)
Theorem default_range_positive (syslist : list LTI) (Hz : bool) (n : nat)
    (feature_periphery_decades : option R) :
  let omega :=
    _default_frequency_range syslist Hz (Some n) feature_periphery_decades in
  List.length omega = match n with O => 50%nat | _ => n end
  /\ Forall (fun w => 0 < w) omega.
Proof.
  cbv zeta. split; [apply default_range_length|].
  unfold _default_frequency_range.
  destruct (fold_left collect_features syslist ([], []))
    as [features freq_interesting].
  destruct freq_interesting as [|f fs]; destruct n as [|n];
    apply logspace_positive.
Qed.

(** X11. With a periphery that is not negative (the default is one
    decade) the automatically selected grid is non-decreasing. *)
Theorem default_range_sorted (syslist : list LTI) (Hz : bool)
    (number_of_samples : option nat) (feature_periphery_decades : option R)
    (i j : nat) :
  (forall d, feature_periphery_decades = Some d -> 0 <= d) ->
  let omega :=
    _default_frequency_range syslist Hz number_of_samples
                             feature_periphery_decades in
  (i <= j < List.length omega)%nat ->
  nth i omega 0 <= nth j omega 0.
Proof.
  intros Hper.
  destruct (default_range_is_logspace syslist Hz number_of_samples
              feature_periphery_decades Hper)
    as [lsp_min [lsp_max [n [Heq Hle]]]].
  cbv zeta. rewrite Heq, logspace_length.
  apply logspace_sorted. exact Hle.
Qed.

Lemma default_range_sorted_witness :
  nth 0 (_default_frequency_range [two_pole_system] false
                                  (Some 1000%nat) None) 0
  <= nth 999 (_default_frequency_range [two_pole_system] false
                                       (Some 1000%nat) None) 0.
Proof.
  apply (default_range_sorted [two_pole_system] false (Some 1000%nat) None
           0 999).
  - intros d Hd. discriminate Hd.
  - rewrite default_range_length. lia.
Defined.

Lemma no_features_collected (syslist : list LTI) :
  Forall (fun sys =>
            dt sys = Continuous
            /\ Forall (fun z => Np.isclose (Cabs z) 0 = true)
                      (pole sys ++ zero sys)) syslist ->
  forall features freq_interesting,
    fold_left collect_features syslist (features, freq_interesting)
    = (features, freq_interesting).
Proof.
  induction 1 as [|sys rest [Hdt Hclose] _ IH]; intros features fi;
    [reflexivity|].
  cbn [fold_left]. rewrite <- (IH features fi) at 2. f_equal.
  unfold collect_features. rewrite Hdt.
  destruct (is_statespace_or_tf sys); [|reflexivity].
  rewrite <- map_app.
  assert (Hfilter : filter (fun f => negb (Np.isclose f 0))
                      (map Cabs (pole sys ++ zero sys)) = []).
  { induction Hclose as [|z t Hz _ IHt]; [reflexivity|].
    cbn [map filter]. rewrite Hz. cbn [negb]. exact IHt. }
  destruct (pole sys ++ zero sys) as [|z t] eqn:E.
  - cbn [map Np.any existsb]. rewrite app_nil_r. reflexivity.
  - inversion Hclose as [|z' t' Hz Ht]; subst.
    cbn [map Np.any existsb] in *. rewrite Hz. cbn [orb].
    rewrite Hfilter, app_nil_r. reflexivity.
Qed.

(** X12. When the systems are continuous-time and all their poles and
    zeros are at the origin (or they have none), no feature is found and
    the grid falls back to the two decades around 1 rad/s:
    [logspace(-1, 1)]. *)
Theorem default_range_fallback (syslist : list LTI) (n : nat) :
  Forall (fun sys =>
            dt sys = Continuous
            /\ Forall (fun z => Np.isclose (Cabs z) 0 = true)
                      (pole sys ++ zero sys)) syslist ->
  _default_frequency_range syslist false (Some n) None
  = Np.logspace (-1) 1 (match n with O => 50%nat | _ => n end).
Proof.
  intros Hsys. unfold _default_frequency_range.
  rewrite (no_features_collected syslist Hsys). cbn [map hd tl].
  rewrite log10_1.
  unfold Np.min, Np.max, default_feature_periphery_decades, Np.rint.
  cbn [fold_left].
  replace (0 - 1) with (IZR (-1)) by lra.
  replace (0 + 1) with (IZR 1) by lra.
  rewrite !round_half_even_IZR.
  destruct n; reflexivity.
Qed.

Lemma default_range_fallback_witness :
  _default_frequency_range [integrator; static_gain] false
                           (Some 1000%nat) None
  = Np.logspace (-1) 1 1000.
Proof.
  apply (default_range_fallback [integrator; static_gain] 1000).
  repeat constructor.
  change (Cabs C0) with (Cabs (mkC 0 0)).
  rewrite Cabs_real, Rabs_R0. apply isclose_zero.
Defined.

(** ** The phase of a Bode plot *)

Lemma round_half_even_near (x : R) :
  Rabs (x - IZR (Np.round_half_even x)) <= 1 / 2.
Proof.
  pose proof (Zfloor_bound x) as Hf. unfold Np.round_half_even.
  set (f := Zfloor x) in *.
  destruct (Rlt_dec (x - IZR f) (1 / 2)) as [Hlo | Hlo].
  - rewrite Rltb_true by exact Hlo. rewrite Rabs_pos_eq; lra.
  - rewrite Rltb_false by lra.
    destruct (Rlt_dec (1 / 2) (x - IZR f)) as [Hhi | Hhi].
    + rewrite Rltb_true by exact Hhi. rewrite plus_IZR.
      rewrite Rabs_left1; lra.
    + rewrite Rltb_false by lra.
      destruct (Z.even f).
      * rewrite Rabs_pos_eq; lra.
      * rewrite plus_IZR. rewrite Rabs_left1; lra.
Qed.

Lemma phase_shift_near_target (phase0 : R) (rest : list R) (target : R) :
  exists (k : Z) (out : list R),
    (if PI <? Rabs (phase0 - target)
     then map (fun x => x - 2 * PI *
                 IZR (Np.round_half_even ((phase0 - target) / (2 * PI))))
              (phase0 :: rest)
     else phase0 :: rest) = out
    /\ out = map (fun x => x - 2 * PI * IZR k) (phase0 :: rest)
    /\ Rabs (hd 0 out - target) <= PI.
Proof.
  pose proof PI_bounds as HPI.
  destruct (Rlt_dec PI (Rabs (phase0 - target))) as [Hfar | Hnear].
  - rewrite Rltb_true by exact Hfar.
    eexists. eexists. split; [reflexivity|]. split; [reflexivity|].
    cbn [map hd].
    set (q := (phase0 - target) / (2 * PI)).
    pose proof (round_half_even_near q) as Hq.
    replace (phase0 - 2 * PI * IZR (Np.round_half_even q) - target)
      with (2 * PI * (q - IZR (Np.round_half_even q)))
      by (unfold q; field; lra).
    rewrite Rabs_mult, (Rabs_pos_eq (2 * PI)) by lra. nra.
  - rewrite Rltb_false by lra.
    exists 0%Z. eexists. split; [reflexivity|]. split.
    + rewrite <- (map_id (phase0 :: rest)) at 1.
      apply map_ext. intros x. ring.
    + cbn [hd]. lra.
Qed.

(** X13. A call of [bode_plot] with a single SISO system, frequencies
    given by the caller, [wrap_phase=True] and [initial_phase] either
    absent or a number [x]: the phase of the system is returned shifted
    as a whole by one multiple of [2*pi], and its first sample is within
    [pi] of the caller's target - 0 when [initial_phase] is absent, [x]
    in radians otherwise ([x/180*pi] with [deg] on). *)
Theorem initial_phase_alignment (unwrap : list R -> list R)
    (frequency_response_phase : LTI -> list R -> list R)
    (sys : LTI) (omega : list R) (omega_limits : option (list R))
    (omega_num : nat) (Hz deg : bool) (initial : option R)
    (phase0 : R) (rest : list R) :
  issiso sys = true ->
  frequency_response_phase sys omega = phase0 :: rest ->
  let target :=
    match initial with
    | Some x => if deg then x / 180 * PI else x
    | None => 0
    end in
  exists (k : Z) (out : list R) (vars : phase_vars),
    bode_phases unwrap frequency_response_phase [sys] (Some omega)
                omega_limits omega_num Hz deg
                (match initial with Some x => PyNum x | None => PyNone end)
                (PyBool true)
    = Ok [(out, vars)]
    /\ out = map (fun x => x - 2 * PI * IZR k) (phase0 :: rest)
    /\ Rabs (hd 0 out - target) <= PI.
Proof.
  intros Hsiso Hphase target.
  destruct (phase_shift_near_target phase0 rest target)
    as [k [out [Hout [Hmap Hnear]]]].
  exists k, out.
  unfold bode_phases.
  cbn [_determine_omega_vector bind bode_loop]. rewrite Hsiso. cbn [negb].
  replace (omega_for_system sys omega true) with omega
    by (unfold omega_for_system; destruct (dt sys); reflexivity).
  rewrite Hphase. unfold bode_phase.
  cbn [initial_phase wrap_phase getitem nth_error].
  destruct initial as [x|]; cbn [bind]; unfold target in Hout;
    rewrite Hout; eexists; (split; [reflexivity|]);
    (split; [exact Hmap | exact Hnear]).
Qed.

Lemma initial_phase_alignment_witness :
  exists (k : Z) (out : list R) (vars : phase_vars),
    bode_phases Ctrlutil.unwrap differentiator_phase [differentiator]
                (Some [1]) None 1000 false true (PyNum 360) (PyBool true)
    = Ok [(out, vars)]
    /\ out = map (fun x => x - 2 * PI * IZR k) [PI / 2]
    /\ Rabs (hd 0 out - 360 / 180 * PI) <= PI.
Proof.
  apply (initial_phase_alignment Ctrlutil.unwrap differentiator_phase
           differentiator [1] None 1000 false true (Some 360) (PI / 2) []).
  - reflexivity.
  - reflexivity.
Defined.

(** ** Batches with a system that is not SISO *)

Lemma mapM_raises {A B : Type} (f : A -> result B) (l : list A) (a : A) :
  In a l -> (exists e, f a = Raise e) -> exists e, mapM f l = Raise e.
Proof.
  intros Hin [e He]. induction l as [|a0 t IH]; [contradiction|].
  cbn [mapM]. destruct (f a0) as [b|e0] eqn:E0; cbn [bind].
  - destruct Hin as [-> | Hin]; [rewrite He in E0; discriminate|].
    destruct (IH Hin) as [e1 He1]. rewrite He1. exists e1. reflexivity.
  - exists e0. reflexivity.
Qed.

Lemma bode_loop_raises (unwrap : list R -> list R)
    (frequency_response_phase : LTI -> list R -> list R) (deg : bool)
    (omega : list R) (omega_range_given : bool) (sys : LTI)
    (syslist : list LTI) :
  In sys syslist -> issiso sys = false ->
  forall vars,
  exists e,
    bode_loop unwrap frequency_response_phase deg omega omega_range_given
              vars syslist = Raise e.
Proof.
  intros Hin Hmimo. induction syslist as [|sys0 rest IH]; [contradiction|].
  intros vars. cbn [bode_loop].
  destruct (issiso sys0) eqn:Esiso; cbn [negb].
  - destruct Hin as [-> | Hin]; [rewrite Hmimo in Esiso; discriminate|].
    destruct (bode_phase unwrap deg vars _) as [r|e0]; cbn [bind].
    + destruct (IH Hin (snd r)) as [e1 He1]. rewrite He1.
      exists e1. reflexivity.
    + exists e0. reflexivity.
  - eexists. reflexivity.
Qed.

(** X14. A batch that contains a system that is not SISO never yields a
    result: [bode_plot] returns no phases and [nyquist_plot] no contours
    for it, whatever the other arguments; each call ends in an
    exception. *)
Theorem mimo_in_batch_raises (unwrap : list R -> list R)
    (frequency_response_phase : LTI -> list R -> list R)
    (syslist : list LTI) (sys : LTI)
    (omega omega_limits : option (list R)) (omega_num : nat) (Hz deg : bool)
    (initial_phase wrap_phase : pyval)
    (indent_radius : R) (indent_direction : string) :
  In sys syslist -> issiso sys = false ->
  (exists e,
      bode_phases unwrap frequency_response_phase syslist omega omega_limits
                  omega_num Hz deg initial_phase wrap_phase = Raise e)
  /\ (exists e,
      nyquist_contours syslist omega omega_limits omega_num indent_radius
                       indent_direction = Raise e).
Proof.
  intros Hin Hmimo. split.
  - unfold bode_phases.
    destruct (_determine_omega_vector syslist omega omega_limits omega_num Hz)
      as [[w given]|e]; cbn [bind]; [|eexists; reflexivity].
    apply (bode_loop_raises unwrap frequency_response_phase deg w given sys
             syslist Hin Hmimo).
  - unfold nyquist_contours.
    destruct (_determine_omega_vector syslist omega omega_limits omega_num
                                      false)
      as [[w given]|e]; cbn [bind]; [|eexists; reflexivity].
    destruct (if negb given then start_at_zero w else Ok w) as [w'|e];
      cbn [bind]; [|eexists; reflexivity].
    apply (mapM_raises _ syslist sys Hin).
    unfold nyquist_contour. rewrite Hmimo. eexists. reflexivity.
Qed.

Lemma mimo_in_batch_raises_witness :
  (exists e,
      bode_phases Ctrlutil.unwrap differentiator_phase
                  [differentiator; mimo_plant] (Some [1]) None 1000 false
                  true PyNone (PyBool false) = Raise e)
  /\ (exists e,
      nyquist_contours [differentiator; mimo_plant] (Some [1]) None 1000
                       (1 / 10) "right" = Raise e).
Proof.
  apply (mimo_in_batch_raises Ctrlutil.unwrap differentiator_phase
           [differentiator; mimo_plant] mimo_plant).
  - right. left. reflexivity.
  - reflexivity.
Defined.

(** ** What indentation does to a point *)

Lemma nth_map_C (f : C -> R) (l : list C) (k : nat) :
  (k < List.length l)%nat -> nth k (map f l) 0 = f (nth k l C0).
Proof.
  intros Hk. rewrite (nth_indep _ 0 (f C0)) by (rewrite length_map; exact Hk).
  apply map_nth.
Qed.

(** The pole [indent_point] works with is a nearest pole. *)
Lemma nearest_pole (splane_poles : list C) (s : C) :
  splane_poles <> [] ->
  exists k,
    Np.argmin (map (fun p => Cabs (Csub p s)) splane_poles) = Ok k
    /\ In (nth k splane_poles C0) splane_poles
    /\ forall q, In q splane_poles ->
         Cabs (Csub (nth k splane_poles C0) s) <= Cabs (Csub q s).
Proof.
  intros Hne. destruct splane_poles as [|p0 ps]; [contradiction|].
  set (l := p0 :: ps) in *.
  destruct (argmin_nonempty (Cabs (Csub p0 s))
              (map (fun p => Cabs (Csub p s)) ps)) as [k Hk].
  change (Cabs (Csub p0 s) :: map (fun p => Cabs (Csub p s)) ps)
    with (map (fun p => Cabs (Csub p s)) l) in Hk.
  exists k. split; [exact Hk|].
  pose proof (argmin_in_range _ _ Hk) as Hrange.
  rewrite length_map in Hrange.
  split; [apply nth_In; exact Hrange|].
  intros q Hq.
  pose proof (argmin_minimal _ _ Hk) as Hmin.
  rewrite Forall_forall in Hmin.
  specialize (Hmin (Cabs (Csub q s))
                (in_map (fun p => Cabs (Csub p s)) l q Hq)).
  rewrite (nth_map_C (fun p => Cabs (Csub p s)) l k Hrange) in Hmin.
  exact Hmin.
Qed.

Lemma Cabs_ge_of_squares (r : R) (z : C) :
  0 <= r -> r * r <= real z * real z + imag z * imag z -> r <= Cabs z.
Proof.
  intros Hr Hsq. unfold Cabs.
  rewrite <- (sqrt_square r Hr). apply sqrt_le_1_alt. exact Hsq.
Qed.

Lemma Cabs_lt_squares (r : R) (z : C) :
  Cabs z < r -> 0 < r /\ real z * real z + imag z * imag z < r * r.
Proof.
  intros Hlt. pose proof (Cabs_nonneg z) as Hpos.
  split; [lra|].
  destruct (Rlt_dec (real z * real z + imag z * imag z) (r * r))
    as [H | H]; [exact H|].
  exfalso. apply Rnot_lt_le in H.
  pose proof (Cabs_ge_of_squares r z ltac:(lra) H). lra.
Qed.

(** X15. For a point of the imaginary axis and poles none of which is
    within the [isclose] tolerance of the axis without being exactly on
    it (and a direction ['right'] or ['left'] when a pole is exactly on
    it), [indent_point] returns a point with the same imaginary part that
    is at distance at least [indent_radius] from the pole nearest to the
    original point. *)
Theorem indentation_clears_nearest_pole (splane_poles : list C)
    (indent_radius : R) (indent_direction : string) (s : C) :
  splane_poles <> [] ->
  real s = 0 ->
  (forall p, In p splane_poles ->
     real p < 0 \/ 1 / 100000000 < real p
     \/ (real p = 0
         /\ (indent_direction = "right"%string
             \/ indent_direction = "left"%string))) ->
  exists s' p,
    indent_point splane_poles indent_radius indent_direction s = Ok s'
    /\ In p splane_poles
    /\ (forall q, In q splane_poles ->
          Cabs (Csub p s) <= Cabs (Csub q s))
    /\ imag s' = imag s
    /\ indent_radius <= Cabs (Csub s' p).
Proof.
  intros Hne Haxis Hpoles.
  destruct (nearest_pole splane_poles s Hne) as [k [Hk [Hin Hmin]]].
  set (p := nth k splane_poles C0) in *.
  unfold indent_point. rewrite Hk. cbn [bind]. fold p.
  destruct (Rlt_dec (Cabs (Csub s p)) indent_radius) as [Hnear | Hfar].
  2:{ rewrite Rltb_false by lra. exists s, p.
      split; [reflexivity|]. split; [exact Hin|]. split; [exact Hmin|].
      split; [reflexivity | lra]. }
  rewrite Rltb_true by exact Hnear.
  destruct (Cabs_lt_squares _ _ Hnear) as [Hr Hsq].
  unfold Csub in Hsq. cbn [real imag] in Hsq. rewrite Haxis in Hsq.
  set (b := imag s - imag p) in *.
  assert (Hrad : 0 <= indent_radius ^ 2 - imag (Csub s p) ^ 2).
  { unfold Csub. cbn [imag]. fold b. nra. }
  pose proof (sqrt_sqrt _ Hrad) as Hsqrt.
  pose proof (sqrt_pos (indent_radius ^ 2 - imag (Csub s p) ^ 2)) as Hsqpos.
  set (sq := sqrt (indent_radius ^ 2 - imag (Csub s p) ^ 2)) in *.
  assert (Hsq2 : sq * sq = indent_radius * indent_radius - b * b).
  { rewrite Hsqrt. unfold Csub. cbn [imag]. fold b. ring. }
  assert (Hright : real p <= 0 ->
            indent_radius <= Cabs (Csub (Cadd_real s sq) p)).
  { intros Hp. apply Cabs_ge_of_squares; [lra|].
    unfold Csub, Cadd_real. cbn [real imag]. rewrite Haxis. fold b. nra. }
  assert (Hleft : 0 <= real p ->
            indent_radius <= Cabs (Csub (Csub_real s sq) p)).
  { intros Hp. apply Cabs_ge_of_squares; [lra|].
    unfold Csub, Csub_real. cbn [real imag]. rewrite Haxis. fold b. nra. }
  destruct (Hpoles p Hin) as [Hneg | [Hposi | [Hzero Hdir]]].
  - rewrite (Rltb_true (real p) 0) by exact Hneg. cbn [orb].
    exists (Cadd_real s sq), p.
    split; [reflexivity|]. split; [exact Hin|]. split; [exact Hmin|].
    split; [reflexivity | apply Hright; lra].
  - rewrite (Rltb_false (real p) 0) by lra.
    rewrite isclose_far by (rewrite Rabs_pos_eq; lra).
    rewrite (Rltb_true 0 (real p)) by lra. cbn [andb orb].
    exists (Csub_real s sq), p.
    split; [reflexivity|]. split; [exact Hin|]. split; [exact Hmin|].
    split; [reflexivity | apply Hleft; lra].
  - rewrite Hzero. rewrite (Rltb_false 0 0) by lra. rewrite isclose_zero.
    cbn [andb orb]. destruct Hdir as [-> | ->].
    + cbn [String.eqb Ascii.eqb Bool.eqb].
      exists (Cadd_real s sq), p.
      split; [reflexivity|]. split; [exact Hin|]. split; [exact Hmin|].
      split; [reflexivity | apply Hright; lra].
    + cbn [String.eqb Ascii.eqb Bool.eqb].
      exists (Csub_real s sq), p.
      split; [reflexivity|]. split; [exact Hin|]. split; [exact Hmin|].
      split; [reflexivity | apply Hleft; lra].
Qed.

Lemma indentation_clears_nearest_pole_witness :
  exists s' p,
    indent_point [C0] (1 / 10) "right" (mkC 0 (1 / 20)) = Ok s'
    /\ In p [C0]
    /\ (forall q, In q [C0] ->
          Cabs (Csub p (mkC 0 (1 / 20))) <= Cabs (Csub q (mkC 0 (1 / 20))))
    /\ imag s' = imag (mkC 0 (1 / 20))
    /\ 1 / 10 <= Cabs (Csub s' p).
Proof.
  apply (indentation_clears_nearest_pole [C0] (1 / 10) "right"
           (mkC 0 (1 / 20))).
  - discriminate.
  - reflexivity.
  - intros p [<- | []]. right. right. split; [reflexivity|].
    left. reflexivity.
Defined.

(** ** What the contour keeps *)

Lemma indent_point_keeps_imag (splane_poles : list C) (indent_radius : R)
    (indent_direction : string) (s : C) :
  splane_poles <> [] ->
  exists s',
    indent_point splane_poles indent_radius indent_direction s = Ok s'
    /\ imag s' = imag s.
Proof.
  intros Hne. unfold indent_point.
  destruct splane_poles as [|p0 ps]; [contradiction|].
  cbn [map Np.argmin bind].
  repeat match goal with
         | |- context [if ?b then _ else _] => destruct b
         end; eexists; split; reflexivity.
Qed.

Lemma mapM_keeps_imag (f : C -> result C) (l : list C) :
  (forall a, exists b, f a = Ok b /\ imag b = imag a) ->
  exists bs, mapM f l = Ok bs /\ map imag bs = map imag l.
Proof.
  intros Hf. induction l as [|a t [bs [Hbs Him]]].
  - exists []. split; reflexivity.
  - destruct (Hf a) as [b [Hb Hb_im]].
    exists (b :: bs). cbn [mapM]. rewrite Hb. cbn [bind]. rewrite Hbs.
    cbn [bind map]. rewrite Hb_im, Him. split; reflexivity.
Qed.

Lemma map_imag_j_times (omega : list R) : map imag (map j_times omega) = omega.
Proof.
  rewrite map_map. cbn [j_times imag]. apply map_id.
Qed.

(** X16. For a continuous-time SISO system and frequencies given by the
    caller, the contour has one point per frequency and the imaginary
    part of every point is its frequency: indentation moves points only
    parallel to the real axis.  (Indentation needs at least one pole and
    two frequencies to run at all.) *)
Theorem contour_keeps_frequencies (sys : LTI) (omega : list R)
    (indent_radius : R) (indent_direction : string) :
  dt sys = Continuous ->
  issiso sys = true ->
  pole sys <> [] ->
  (2 <= List.length omega)%nat ->
  exists contour,
    nyquist_contour sys omega true indent_radius indent_direction
    = Ok contour
    /\ map imag contour = omega
    /\ List.length contour = List.length omega.
Proof.
  intros Hdt Hsiso Hpole Hlen.
  assert (Hgoal : exists contour,
            nyquist_contour sys omega true indent_radius indent_direction
            = Ok contour /\ map imag contour = omega).
  { unfold nyquist_contour, omega_for_system. rewrite Hdt, Hsiso.
    cbn [negb].
    destruct (is_statespace_or_tf sys
              && negb (indent_direction =? "none")%string).
    - unfold indent_contour, splane_poles_of. rewrite Hdt.
      destruct omega as [|w0 [|w1 ws]]; cbn [List.length] in Hlen; try lia.
      cbn [map getitem nth_error bind negb]. rewrite andb_false_r.
      destruct (mapM_keeps_imag
                  (indent_point (pole sys) indent_radius indent_direction)
                  (j_times w0 :: j_times w1 :: map j_times ws))
        as [bs [Hbs Him]].
      { intros a. apply indent_point_keeps_imag. exact Hpole. }
      rewrite Hbs. cbn [bind]. exists bs. split; [reflexivity|].
      rewrite Him.
      change (j_times w0 :: j_times w1 :: map j_times ws)
        with (map j_times (w0 :: w1 :: ws)).
      apply map_imag_j_times.
    - cbn [bind]. eexists. split; [reflexivity|]. apply map_imag_j_times. }
  destruct Hgoal as [contour [Hc Him]].
  exists contour. split; [exact Hc|]. split; [exact Him|].
  apply (f_equal (@List.length R)) in Him. rewrite length_map in Him.
  exact Him.
Qed.

Lemma contour_keeps_frequencies_witness :
  exists contour,
    nyquist_contour integrator [0; 1 / 20; 1] true (1 / 10) "right"
    = Ok contour
    /\ map imag contour = [0; 1 / 20; 1]
    /\ List.length contour = List.length [0; 1 / 20; 1].
Proof.
  apply (contour_keeps_frequencies integrator [0; 1 / 20; 1] (1 / 10)
           "right"); try reflexivity.
  - discriminate.
  - cbn [List.length]. lia.
Defined.

Lemma Cabs_unit_circle (w d : R) : Cabs (Cexp (Cscale (j_times w) d)) = 1.
Proof.
  unfold Cabs, Cexp, Cscale, j_times. cbn [real imag].
  rewrite Rmult_0_l, exp_0, !Rmult_1_l.
  pose proof (sin2_cos2 (w * d)) as H. unfold Rsqr in H.
  replace (cos (w * d) * cos (w * d) + sin (w * d) * sin (w * d)) with 1
    by lra.
  apply sqrt_1.
Qed.

(** X17. The points at which [singular_values_plot] evaluates a system:
    one per frequency of the system's grid; for a discrete-time system
    every point lies on the unit circle, for a continuous-time system on
    the imaginary axis. *)
Theorem singular_values_contour_shape (sys : LTI) (omega : list R)
    (omega_range_given : bool) :
  List.length (singular_values_contour sys omega omega_range_given)
  = List.length (singular_values_omega sys omega omega_range_given)
  /\ ((exists d, dt sys = Discrete d) ->
      Forall (fun z => Cabs z = 1)
             (singular_values_contour sys omega omega_range_given))
  /\ (dt sys = Continuous ->
      Forall (fun z => real z = 0)
             (singular_values_contour sys omega omega_range_given)).
Proof.
  unfold singular_values_contour. split; [|split].
  - destruct (dt sys); rewrite length_map; reflexivity.
  - intros [d Hd]. rewrite Hd. apply Forall_forall. intros z Hz.
    apply in_map_iff in Hz. destruct Hz as [w [<- _]].
    apply Cabs_unit_circle.
  - intros Hc. rewrite Hc. apply Forall_forall. intros z Hz.
    apply in_map_iff in Hz. destruct Hz as [w [<- _]]. reflexivity.
Qed.

Lemma singular_values_contour_shape_witness :
  Forall (fun z => Cabs z = 1) (singular_values_contour unit_delay [1; 4] false)
  /\ Forall (fun z => real z = 0)
            (singular_values_contour integrator [1; 4] false).
Proof.
  split.
  - apply (proj1 (proj2 (singular_values_contour_shape unit_delay [1; 4]
                           false))).
    exists 1. reflexivity.
  - apply (proj2 (proj2 (singular_values_contour_shape integrator [1; 4]
                           false))).
    reflexivity.
Defined.

(** ** Counting on a finely sampled response *)

Lemma sum_diff_telescope (l : list R) :
  Np.sum (Np.diff l) = last l 0 - hd 0 l.
Proof.
  destruct l as [|x t]; [cbn; ring|].
  revert x. induction t as [|y t IH]; intros x.
  - cbn. ring.
  - change (Np.diff (x :: y :: t)) with ((y - x) :: Np.diff (y :: t)).
    change (last (x :: y :: t) 0) with (last (y :: t) 0).
    unfold Np.sum in *. cbn [fold_right hd]. rewrite IH. cbn [hd]. ring.
Qed.

Lemma map_wrap_diff_small (l : list R) :
  Forall (fun d => - PI < d <= PI) l -> map Ctrlutil.wrap_diff l = l.
Proof.
  induction 1 as [|d t Hd _ IH]; [reflexivity|].
  cbn [map]. rewrite IH, (wrap_diff_small d Hd). reflexivity.
Qed.

(** X18. (With [unwrap] as the spec describes it.)  When the angle of
    [resp + 1] changes by less than half a turn between successive
    samples - every difference in [(-pi, pi]] - the count is the net
    change of that angle, first minus last, divided by [pi] and rounded;
    in particular it is 0 when the curve ends at the angle it started
    from. *)
Theorem count_of_fine_sampling (resp : list C) :
  let angles := map (fun r => Np.angle (Cadd_real r 1)) resp in
  Forall (fun d => - PI < d <= PI) (Np.diff angles) ->
  count_encirclements resp
  = Np.round_half_even ((hd 0 angles - last angles 0) / PI)
  /\ (hd 0 angles = last angles 0 -> count_encirclements resp = 0%Z).
Proof.
  intros angles Hfine.
  assert (Hcount : count_encirclements resp
                   = Np.round_half_even ((hd 0 angles - last angles 0) / PI)).
  { unfold count_encirclements. rewrite encirclement_sum. fold angles.
    rewrite (map_wrap_diff_small _ Hfine), sum_diff_telescope.
    f_equal. unfold Rdiv. ring. }
  split; [exact Hcount|].
  intros Hclosed. rewrite Hcount, Hclosed.
  replace ((last angles 0 - last angles 0) / PI) with (IZR 0)
    by (unfold Rdiv; ring).
  apply round_half_even_IZR.
Qed.

Lemma count_of_fine_sampling_witness :
  count_encirclements [C0; mkC 0 1; C0] = 0%Z.
Proof.
  pose proof PI_bounds as HPI.
  assert (Hfine : Forall (fun d => - PI < d <= PI)
            (Np.diff (map (fun r => Np.angle (Cadd_real r 1))
                          [C0; mkC 0 1; C0]))).
  { cbn [map Np.diff]. rewrite angle_of_one, angle_one_plus_j.
    repeat constructor; lra. }
  apply (proj2 (count_of_fine_sampling [C0; mkC 0 1; C0] Hfine)).
  cbn [map hd last]. reflexivity.
Defined.

(** ** Arrows along the curve *)

Lemma cumsum_from_length (l : list R) (acc : R) :
  List.length (Np.cumsum_from acc l) = List.length l.
Proof.
  revert acc. induction l as [|x t IH]; intros acc; [reflexivity|].
  cbn [Np.cumsum_from List.length]. rewrite IH. reflexivity.
Qed.

Lemma cumsum_from_last (l : list R) :
  Forall (fun x => 0 <= x) l ->
  forall acc d, acc <= last (acc :: Np.cumsum_from acc l) d.
Proof.
  induction 1 as [|x t Hx _ IH]; intros acc d; [cbn [Np.cumsum_from last]; lra|].
  cbn [Np.cumsum_from].
  change (last (acc :: (acc + x) :: Np.cumsum_from (acc + x) t) d)
    with (last ((acc + x) :: Np.cumsum_from (acc + x) t) d).
  specialize (IH (acc + x) d). lra.
Qed.

Lemma diff_length (l : list R) : List.length (Np.diff l) = pred (List.length l).
Proof.
  induction l as [|x [|y t] IH]; try reflexivity.
  change (Np.diff (x :: y :: t)) with ((y - x) :: Np.diff (y :: t)).
  cbn [List.length pred] in *. rewrite IH. reflexivity.
Qed.

Lemma arc_length_length (line : list (R * R)) :
  List.length (arc_length line) = pred (List.length line).
Proof.
  unfold arc_length, Np.cumsum.
  rewrite cumsum_from_length, length_map, length_combine, !diff_length,
    !length_map.
  apply Nat.min_id.
Qed.

Lemma arc_length_last_nonneg (line : list (R * R)) :
  0 <= last (arc_length line) 0.
Proof.
  unfold arc_length, Np.cumsum.
  set (segments := map (fun d => sqrt (fst d ^ 2 + snd d ^ 2)) _).
  assert (Hpos : Forall (fun x => 0 <= x) segments).
  { apply Forall_forall. intros x Hx. unfold segments in Hx.
    apply in_map_iff in Hx. destruct Hx as [d [<- _]]. apply sqrt_pos. }
  destruct segments as [|x t]; [cbn [Np.cumsum_from last]; lra|].
  cbn [Np.cumsum_from].
  inversion Hpos as [|x' t' Hx Ht]; subst.
  pose proof (cumsum_from_last t Ht (0 + x) 0). lra.
Qed.

Lemma searchsorted_below_length (s : list R) (v : R) :
  s <> [] -> v <= last s 0 -> (Np.searchsorted s v < List.length s)%nat.
Proof.
  intros Hne Hv. induction s as [|x [|y t] IH]; [contradiction| |].
  - cbn [last] in Hv. cbn [Np.searchsorted List.length].
    rewrite Rltb_false by lra. lia.
  - change (Np.searchsorted (x :: y :: t) v)
      with (if x <? v then S (Np.searchsorted (y :: t) v) else O).
    destruct (x <? v).
    + change (last (x :: y :: t) 0) with (last (y :: t) 0) in Hv.
      specialize (IH ltac:(discriminate) Hv).
      change (List.length (x :: y :: t)) with (S (List.length (y :: t))).
      lia.
    + cbn [List.length]. lia.
Qed.

Lemma slice_two (a : list R) (n : nat) (p q : R) :
  nth_error a n = Some p -> nth_error a (S n) = Some q ->
  slice a n (n + 2) = [p; q].
Proof.
  unfold slice. replace (n + 2 - n)%nat with 2%nat by lia.
  revert a. induction n as [|n IH]; intros a Hp Hq.
  - destruct a as [|u [|v t]]; cbn in Hp, Hq; try discriminate.
    injection Hp as ->. injection Hq as ->. reflexivity.
  - destruct a as [|u t]; [discriminate|].
    cbn [skipn]. apply IH; assumption.
Qed.

Lemma mean_two (p q : R) : Np.mean [p; q] = (p + q) / 2.
Proof. unfold Np.mean, Np.sum. cbn [fold_right List.length INR]. field. Qed.

(** X19. For a line of at least two points, a direction of 1 or -1 and a
    location of at most 1 (a fraction of the arc length), the arrow is
    placed without an index error on a segment between two successive
    points of the line: its head is the midpoint of the segment and its
    tail is the first point for direction 1, the second for -1. *)
Theorem arrow_at_in_range (line : list (R * R)) (dir : Z) (loc : R) :
  (2 <= List.length line)%nat ->
  loc <= 1 ->
  dir = 1%Z \/ dir = (-1)%Z ->
  exists n p q,
    nth_error line n = Some p
    /\ nth_error line (S n) = Some q
    /\ arrow_at line dir loc
       = Ok ((if (dir =? 1)%Z then p else q),
             ((fst p + fst q) / 2, (snd p + snd q) / 2)).
Proof.
  intros Hlen Hloc Hdir. unfold arrow_at.
  pose proof (arc_length_length line) as HL.
  pose proof (arc_length_last_nonneg line) as Hlast.
  set (s := arc_length line) in *.
  assert (Hne : s <> []).
  { intros E. rewrite E in HL. cbn [List.length] in HL. lia. }
  assert (Hs : getitem_last s = Ok (last s 0)).
  { destruct s; [contradiction | reflexivity]. }
  rewrite Hs. cbn [bind].
  assert (Hv : last s 0 * loc <= last s 0) by nra.
  pose proof (searchsorted_below_length s (last s 0 * loc) Hne Hv) as Hn.
  set (n := Np.searchsorted s (last s 0 * loc)) in *.
  destruct (nth_error line n) as [p|] eqn:Ep.
  2:{ apply nth_error_None in Ep. lia. }
  destruct (nth_error line (S n)) as [q|] eqn:Eq.
  2:{ apply nth_error_None in Eq. lia. }
  exists n, p, q. split; [exact Ep|]. split; [exact Eq|].
  pose proof (map_nth_error fst _ _ Ep) as Exp.
  pose proof (map_nth_error fst _ _ Eq) as Exq.
  pose proof (map_nth_error snd _ _ Ep) as Eyp.
  pose proof (map_nth_error snd _ _ Eq) as Eyq.
  rewrite (slice_two _ n _ _ Exp Exq), (slice_two _ n _ _ Eyp Eyq).
  rewrite !mean_two.
  unfold getitem. replace (n + 1)%nat with (S n) by lia.
  rewrite Exp, Exq, Eyp, Eyq. cbn [bind].
  destruct Hdir as [-> | ->]; cbn [Z.eqb Pos.eqb];
    [destruct p | destruct q]; reflexivity.
Qed.

Lemma arrow_at_in_range_witness :
  exists n p q,
    nth_error [(0, 0); (1, 0); (1, 1)] n = Some p
    /\ nth_error [(0, 0); (1, 0); (1, 1)] (S n) = Some q
    /\ arrow_at [(0, 0); (1, 0); (1, 1)] (-1) (1 / 2)
       = Ok ((if (-1 =? 1)%Z then p else q),
             ((fst p + fst q) / 2, (snd p + snd q) / 2)).
Proof.
  apply (arrow_at_in_range [(0, 0); (1, 0); (1, 1)] (-1) (1 / 2)).
  - cbn [List.length]. lia.
  - lra.
  - right. reflexivity.
Defined.

(** X20. For a positive integer [arrows = N], [nyquist_plot] places [N]
    arrows at locations strictly between 0 and 1, so that each of them
    can be drawn on any curve of at least two points; with [N = 0] the
    computation of the locations fails. *)
Theorem nyquist_arrow_pos_inside (N : nat) :
  nyquist_arrow_pos 0 = None
  /\ ((1 <= N)%nat ->
      exists locs,
        nyquist_arrow_pos N = Some locs
        /\ List.length locs = N
        /\ Forall (fun loc => 0 < loc < 1) locs).
Proof.
  split; [reflexivity|].
  intros HN. unfold nyquist_arrow_pos.
  destruct N as [|N']; [lia|]. set (N := S N') in *.
  eexists. split; [reflexivity|]. cbv zeta.
  split; [rewrite length_map, length_seq; reflexivity|].
  apply Forall_forall. intros loc Hloc.
  apply in_map_iff in Hloc. destruct Hloc as [i [<- Hi]].
  apply in_seq in Hi.
  assert (HNpos : 0 < INR N) by (apply lt_0_INR; lia).
  assert (Hi0 : 0 <= INR i) by apply pos_INR.
  assert (Hi1 : INR i + 1 <= INR N).
  { rewrite <- S_INR. apply le_INR. lia. }
  replace (INR i * ((1 + 5 / 10 / INR N - 5 / 10 / INR N) / INR N)
           + 5 / 10 / INR N)
    with ((INR i + 1 / 2) / INR N) by (field; lra).
  split.
  - apply Rdiv_lt_0_compat; lra.
  - apply Rmult_lt_reg_r with (INR N); [exact HNpos|].
    unfold Rdiv. rewrite Rmult_assoc, Rinv_l by lra. lra.
Qed.

Lemma nyquist_arrow_pos_inside_witness :
  exists locs,
    nyquist_arrow_pos 2 = Some locs
    /\ List.length locs = 2%nat
    /\ Forall (fun loc => 0 < loc < 1) locs.
Proof.
  apply (proj2 (nyquist_arrow_pos_inside 2)). lia.
Defined.

(** ** Discrete-time systems and the Nyquist frequency *)

(** X21. For a discrete-time system with sampling time [d] and an
    automatically selected range, the grid of the system is made of
    exactly those samples of the common grid that are strictly below
    [pi/d], in their order, followed by [pi/d]: nothing below the Nyquist
    frequency is dropped and nothing at or above it is kept. *)
Theorem discrete_grid_clipped (sys : LTI) (omega : list R) (d : R) :
  dt sys = Discrete d ->
  exists below,
    omega_for_system sys omega false = below ++ [PI / d]
    /\ below = filter (fun w => w <? PI / d) omega
    /\ (forall w, In w below <-> In w omega /\ w < PI / d)
    /\ (List.length below <= List.length omega)%nat.
Proof.
  intros Hd. unfold omega_for_system, clip_to_nyquist. rewrite Hd.
  cbn [negb]. eexists. split; [reflexivity|]. split; [reflexivity|].
  split.
  - intros w. rewrite filter_In. split.
    + intros [Hin Hlt]. split; [exact Hin | apply Rltb_inv_true; exact Hlt].
    + intros [Hin Hlt]. split; [exact Hin | apply Rltb_true; exact Hlt].
  - apply filter_length_le.
Qed.

Lemma discrete_grid_clipped_witness :
  exists below,
    omega_for_system unit_delay [1; 4] false = below ++ [PI / 1]
    /\ below = filter (fun w => w <? PI / 1) [1; 4]
    /\ (forall w, In w below <-> In w [1; 4] /\ w < PI / 1)
    /\ (List.length below <= List.length [1; 4])%nat.
Proof.
  apply (discrete_grid_clipped unit_delay [1; 4] 1). reflexivity.
Defined.

Lemma collect_features_interesting (st : list R * list R) (sys : LTI) :
  snd (collect_features st sys)
  = match dt sys with
    | Continuous => snd st
    | Discrete d => snd st ++ [PI * 1 / d * (9 / 10)]
    end.
Proof.
  destruct st as [features fi]. unfold collect_features.
  destruct (dt sys); destruct (is_statespace_or_tf sys); reflexivity.
Qed.

Lemma interesting_frequencies (syslist : list LTI) :
  forall st sys d,
    In sys syslist -> dt sys = Discrete d ->
    In (PI * 1 / d * (9 / 10)) (snd (fold_left collect_features syslist st)).
Proof.
  assert (Hkeep : forall l st x, In x (snd st) ->
            In x (snd (fold_left collect_features l st))).
  { induction l as [|s0 t IH]; intros st x Hx; [exact Hx|].
    cbn [fold_left]. apply IH. rewrite collect_features_interesting.
    destruct (dt s0); [exact Hx | apply in_or_app; left; exact Hx]. }
  induction syslist as [|s0 t IH]; intros st sys d Hin Hd; [contradiction|].
  cbn [fold_left]. destruct Hin as [-> | Hin].
  - apply Hkeep. rewrite collect_features_interesting, Hd.
    apply in_or_app. right. left. reflexivity.
  - apply (IH _ sys d Hin Hd).
Qed.

Lemma interesting_frequencies_positive (syslist : list LTI) :
  (forall sys d, In sys syslist -> dt sys = Discrete d -> 0 < d) ->
  forall st,
    Forall (fun x => 0 < x) (snd st) ->
    Forall (fun x => 0 < x) (snd (fold_left collect_features syslist st)).
Proof.
  induction syslist as [|s0 t IH]; intros Hdt st Hst; [exact Hst|].
  cbn [fold_left]. apply IH.
  - intros sys d Hin. apply Hdt. right. exact Hin.
  - rewrite collect_features_interesting.
    destruct (dt s0) as [|d] eqn:E; [exact Hst|].
    apply Forall_app. split; [exact Hst|].
    constructor; [|constructor].
    pose proof PI_bounds. pose proof (Hdt s0 d (or_introl eq_refl) E).
    apply Rmult_lt_0_compat; [|lra].
    apply Rdiv_lt_0_compat; lra.
Qed.

Lemma fold_left_Rmin_spec (l : list R) (x : R) :
  In (fold_left Rmin l x) (x :: l)
  /\ forall y, In y (x :: l) -> fold_left Rmin l x <= y.
Proof.
  revert x. induction l as [|z t IH]; intros x; cbn [fold_left].
  - split; [left; reflexivity|]. intros y [<- | []]. lra.
  - destruct (IH (Rmin x z)) as [Hin Hle]. split.
    + destruct Hin as [Heq | Hin].
      * rewrite <- Heq. unfold Rmin. destruct (Rle_dec x z);
          [left; reflexivity | right; left; reflexivity].
      * right. right. exact Hin.
    + intros y Hy.
      assert (Hm : fold_left Rmin t (Rmin x z) <= Rmin x z)
        by (apply Hle; left; reflexivity).
      assert (Hx : Rmin x z <= x /\ Rmin x z <= z)
        by (unfold Rmin; destruct (Rle_dec x z); lra).
      destruct Hy as [<- | [<- | Hy]]; [lra | lra |].
      apply Hle. right. exact Hy.
Qed.

Lemma fold_left_Rmax_spec (l : list R) (x : R) :
  In (fold_left Rmax l x) (x :: l)
  /\ forall y, In y (x :: l) -> y <= fold_left Rmax l x.
Proof.
  revert x. induction l as [|z t IH]; intros x; cbn [fold_left].
  - split; [left; reflexivity|]. intros y [<- | []]. lra.
  - destruct (IH (Rmax x z)) as [Hin Hle]. split.
    + destruct Hin as [Heq | Hin].
      * rewrite <- Heq. unfold Rmax. destruct (Rle_dec x z);
          [right; left; reflexivity | left; reflexivity].
      * right. right. exact Hin.
    + intros y Hy.
      assert (Hm : Rmax x z <= fold_left Rmax t (Rmax x z))
        by (apply Hle; left; reflexivity).
      assert (Hx : x <= Rmax x z /\ z <= Rmax x z)
        by (unfold Rmax; destruct (Rle_dec x z); lra).
      destruct Hy as [<- | [<- | Hy]]; [lra | lra |].
      apply Hle. right. exact Hy.
Qed.

Lemma log10_monotone (a b : R) : 0 < a -> a <= b -> Np.log10 a <= Np.log10 b.
Proof.
  intros Ha Hab. pose proof ln_10_pos as H10. unfold Np.log10.
  assert (Hln : ln a <= ln b).
  { destruct Hab as [Hlt | ->]; [left; apply ln_increasing; lra | lra]. }
  apply Rmult_le_compat_r; [|exact Hln].
  left. apply Rinv_0_lt_compat. exact H10.
Qed.

(** X22. When the batch contains a discrete-time system with sampling
    time [d] (all sampling times being positive) and at least two samples
    are asked for, the automatically selected grid spans the
    near-Nyquist frequency [0.9 * pi/d] of that system: its first sample
    is at most that frequency and its last sample at least. *)
Theorem default_range_covers_near_nyquist (syslist : list LTI) (sys : LTI)
    (d : R) (Hz : bool) (n : nat) (feature_periphery_decades : option R) :
  In sys syslist ->
  dt sys = Discrete d ->
  (forall s e, In s syslist -> dt s = Discrete e -> 0 < e) ->
  (2 <= n)%nat ->
  let omega :=
    _default_frequency_range syslist Hz (Some n) feature_periphery_decades in
  hd 0 omega <= PI * 1 / d * (9 / 10) <= last omega 0.
Proof.
  intros Hin Hd Hpos Hn. cbv zeta.
  pose proof (interesting_frequencies syslist ([], []) sys d Hin Hd) as Hx.
  pose proof (interesting_frequencies_positive syslist Hpos ([], [])
                (Forall_nil _)) as Hall.
  unfold _default_frequency_range.
  destruct (fold_left collect_features syslist ([], []))
    as [features fi].
  cbn [snd] in Hx, Hall.
  destruct fi as [|f fs]; [contradiction|].
  destruct n as [|[|k]]; try lia.
  match goal with
  | |- hd 0 (Np.logspace ?a ?b ?m) <= _ <= _ =>
      destruct (logspace_ends a b m ltac:(lia)) as [Hhd Hlast];
      rewrite Hhd, Hlast
  end.
  destruct (fold_left_Rmin_spec fs f) as [Hmin_in Hmin_le].
  destruct (fold_left_Rmax_spec fs f) as [Hmax_in Hmax_le].
  fold (Np.min f fs) in Hmin_in, Hmin_le.
  fold (Np.max f fs) in Hmax_in, Hmax_le.
  rewrite Forall_forall in Hall.
  pose proof (Hall _ Hmin_in) as Hmin_pos.
  pose proof (Hall _ Hmax_in) as Hmax_pos.
  split.
  - apply Rle_trans with (Rpower 10 (Np.log10 (Np.min f fs))).
    + apply Rle_Rpower; [lra|].
      unfold Rmin. destruct (Rle_dec _ _); lra.
    + rewrite Rpower_10_log10 by exact Hmin_pos. apply Hmin_le. exact Hx.
  - apply Rle_trans with (Rpower 10 (Np.log10 (Np.max f fs))).
    + rewrite Rpower_10_log10 by exact Hmax_pos. apply Hmax_le. exact Hx.
    + apply Rle_Rpower; [lra|].
      unfold Rmax. destruct (Rle_dec _ _); lra.
Qed.

Lemma default_range_covers_near_nyquist_witness :
  hd 0 (_default_frequency_range [unit_delay] false (Some 1000%nat) None)
  <= PI * 1 / 1 * (9 / 10)
  <= last (_default_frequency_range [unit_delay] false (Some 1000%nat) None) 0.
Proof.
  apply (default_range_covers_near_nyquist [unit_delay] unit_delay 1 false
           1000 None).
  - left. reflexivity.
  - reflexivity.
  - intros s e [<- | []] He. cbn [unit_delay dt] in He.
    injection He as <-. lra.
  - lia.
Defined.

(** ** Features inside the automatic grid *)

Lemma collect_features_keeps (st : list R * list R) (sys : LTI) (x : R) :
  In x (fst st) -> In x (fst (collect_features st sys)).
Proof.
  destruct st as [features fi]. unfold collect_features. cbn [fst].
  intros Hx.
  destruct (dt sys); destruct (is_statespace_or_tf sys); cbn [fst];
    try exact Hx; apply in_or_app; left; exact Hx.
Qed.

Lemma collect_features_adds (st : list R * list R) (sys : LTI) (z : C) :
  dt sys = Continuous ->
  is_statespace_or_tf sys = true ->
  In z (pole sys ++ zero sys) ->
  Np.isclose (Cabs z) 0 = false ->
  In (Cabs z) (fst (collect_features st sys)).
Proof.
  intros Hdt Hcls Hz Hfar. destruct st as [features fi].
  unfold collect_features. rewrite Hdt, Hcls. cbn [fst].
  apply in_or_app. right. rewrite <- map_app.
  destruct (Np.any _).
  - apply filter_In. split; [apply in_map; exact Hz|].
    rewrite Hfar. reflexivity.
  - apply in_map. exact Hz.
Qed.

Lemma features_collected (syslist : list LTI) (sys : LTI) (z : C) :
  In sys syslist ->
  dt sys = Continuous ->
  is_statespace_or_tf sys = true ->
  In z (pole sys ++ zero sys) ->
  Np.isclose (Cabs z) 0 = false ->
  forall st, In (Cabs z) (fst (fold_left collect_features syslist st)).
Proof.
  intros Hin Hdt Hcls Hz Hfar.
  assert (Hkeep : forall l st x, In x (fst st) ->
            In x (fst (fold_left collect_features l st))).
  { induction l as [|s0 t IH]; intros st x Hx; [exact Hx|].
    cbn [fold_left]. apply IH. apply collect_features_keeps. exact Hx. }
  induction syslist as [|s0 t IH]; intros st; [contradiction|].
  cbn [fold_left]. destruct Hin as [-> | Hin].
  - apply Hkeep. apply collect_features_adds; assumption.
  - apply IH. exact Hin.
Qed.

Lemma rint_within_half (x : R) : x - 1 / 2 <= Np.rint x <= x + 1 / 2.
Proof.
  pose proof (round_half_even_near x) as H. unfold Np.rint.
  unfold Rabs in H. destruct (Rcase_abs _); lra.
Qed.

(** X23. With a periphery of at least half a decade (the default is one
    decade), frequencies in rad/s and at least two samples, the magnitude
    of every pole and zero of a continuous-time system of the batch that
    is not at the origin lies within the automatically selected grid,
    between its first and its last sample. *)
Theorem default_range_covers_features (syslist : list LTI) (sys : LTI)
    (z : C) (n : nat) (feature_periphery_decades : option R) :
  In sys syslist ->
  dt sys = Continuous ->
  is_statespace_or_tf sys = true ->
  In z (pole sys ++ zero sys) ->
  Np.isclose (Cabs z) 0 = false ->
  (forall p, feature_periphery_decades = Some p -> 1 / 2 <= p) ->
  (2 <= n)%nat ->
  let omega :=
    _default_frequency_range syslist false (Some n)
                             feature_periphery_decades in
  hd 0 omega <= Cabs z <= last omega 0.
Proof.
  intros Hin Hdt Hcls Hz Hfar Hper Hn. cbv zeta.
  pose proof (features_collected syslist sys z Hin Hdt Hcls Hz Hfar ([], []))
    as Hfeat.
  assert (Hzpos : 0 < Cabs z).
  { pose proof (Cabs_nonneg z) as H0.
    destruct (Req_dec (Cabs z) 0) as [E | E]; [|lra].
    rewrite E, isclose_zero in Hfar. discriminate. }
  unfold _default_frequency_range.
  destruct (fold_left collect_features syslist ([], []))
    as [features fi].
  cbn [fst] in Hfeat.
  set (per := match feature_periphery_decades with
              | Some d => d
              | None => default_feature_periphery_decades
              end).
  assert (Hp : 1 / 2 <= per).
  { unfold per. destruct feature_periphery_decades as [p|].
    - apply Hper. reflexivity.
    - unfold default_feature_periphery_decades. lra. }
  destruct features as [|f0 ft]; [contradiction|].
  set (feats := map Np.log10 (f0 :: ft)).
  assert (Hlog : In (Np.log10 (Cabs z)) feats)
    by (apply in_map; exact Hfeat).
  change (hd 0 feats :: tl feats) with feats in *.
  destruct (fold_left_Rmin_spec (tl feats) (hd 0 feats)) as [_ Hmin].
  destruct (fold_left_Rmax_spec (tl feats) (hd 0 feats)) as [_ Hmax].
  fold (Np.min (hd 0 feats) (tl feats)) in Hmin.
  fold (Np.max (hd 0 feats) (tl feats)) in Hmax.
  assert (Hcons : hd 0 feats :: tl feats = feats) by reflexivity.
  rewrite Hcons in Hmin, Hmax.
  specialize (Hmin _ Hlog). specialize (Hmax _ Hlog).
  pose proof (rint_within_half (Np.min (hd 0 feats) (tl feats) - per)) as Hlo.
  pose proof (rint_within_half (Np.max (hd 0 feats) (tl feats) + per)) as Hhi.
  set (lo := Np.rint (Np.min (hd 0 feats) (tl feats) - per)) in *.
  set (hi := Np.rint (Np.max (hd 0 feats) (tl feats) + per)) in *.
  assert (Hends : forall a b,
            a <= lo -> hi <= b ->
            hd 0 (Np.logspace a b n) <= Cabs z <= last (Np.logspace a b n) 0).
  { intros a b Ha Hb.
    destruct (logspace_ends a b n Hn) as [Hhd Hlast]. rewrite Hhd, Hlast.
    pose proof (Rpower_10_log10 (Cabs z) Hzpos) as Hz10.
    split.
    - rewrite <- Hz10. apply Rle_Rpower; lra.
    - rewrite <- Hz10. apply Rle_Rpower; lra. }
  destruct n as [|n']; [lia|].
  destruct fi as [|f fs].
  - apply Hends; lra.
  - apply Hends.
    + unfold Rmin. destruct (Rle_dec _ _); lra.
    + unfold Rmax. destruct (Rle_dec _ _); lra.
Qed.

Lemma default_range_covers_features_witness :
  hd 0 (_default_frequency_range [two_pole_system] false (Some 1000%nat) None)
  <= Cabs (mkC (-1000) 0)
  <= last (_default_frequency_range [two_pole_system] false
                                    (Some 1000%nat) None) 0.
Proof.
  apply (default_range_covers_features [two_pole_system] two_pole_system
           (mkC (-1000) 0) 1000 None).
  - left. reflexivity.
  - reflexivity.
  - reflexivity.
  - right. left. reflexivity.
  - replace (mkC (-1000) 0) with (mkC (- (1000)) 0) by (f_equal; lra).
    rewrite Cabs_neg_real by lra.
    apply isclose_far. rewrite Rabs_pos_eq; lra.
  - intros p Hp. discriminate Hp.
  - lia.
Defined.
